(** * Trusted-certificate registry of the cf-vault auth plugin

    A shallow embedding of [cf-vault-auth-plugin/path_certs.go]: the
    handlers [pathCertRead], [pathCertDelete] and [pathCertWrite] of the
    [certs/<name>] route, the lookup helper [Cert], and the pieces of the
    Vault framework and of the Go standard library they go through
    ([time.Duration] arithmetic, [strings.ToLower], [logical.Response],
    [logical.Storage]).

    Conventions.
    - A Go [int] / [time.Duration] is a [Z] in the signed 64-bit range;
      multiplication wraps around ([wrap64]).
    - A Go [string] is a [string] (a sequence of bytes); a [[]byte] is a
      [list byte].
    - A pair [(value, error)] returned by a Go function is a [result].
    - A handler returns a response pointer and an error; that pair is an
      [outcome].  A handler runs in a [World]: the key-value data behind
      [req.Storage], the failures the storage will report next, and the
      lines sent to the backend's logger. *)

From Stdlib Require Import ZArith Lia Ascii.
From Stdlib.Init Require Import Byte.
From stdpp Require Import gmap strings list fin_maps pretty.

Local Open Scope Z_scope.

(** ** Go scalars *)

Definition int64_min : Z := - 2 ^ 63.
Definition int64_max : Z := 2 ^ 63 - 1.

(** Two's-complement reduction of an integer to 64 bits. *)
Definition wrap64 (z : Z) : Z := (z + 2 ^ 63) mod 2 ^ 64 - 2 ^ 63.

Definition in_int64 (z : Z) : Prop := int64_min <= z <= int64_max.

Module time.

(** [type Duration int64], counted in nanoseconds. *)
Definition Duration : Type := Z.

Definition Nanosecond : Duration := 1.
Definition Second : Duration := 1000000000.

(** [time.Duration(n)] for an [int]. *)
Definition of_int (n : Z) : Duration := wrap64 n.

(** [a * b] on [Duration]. *)
Definition mul (a b : Duration) : Duration := wrap64 (a * b).

(** [a / b] on [Duration]: Go's integer division truncates towards
    zero. *)
Definition div (a b : Duration) : Duration := wrap64 (Z.quot a b).

End time.

(** [strings.ToLower] on the bytes ['A'..'Z'].  The route pattern is
    ["certs/" + framework.GenericNameRegex("name")], so a name that reaches
    a handler consists of ASCII word characters, ['-'] and ['.'] only, and
    on such strings Go's [ToLower] is this byte-wise map. *)
Definition lower_byte (c : ascii) : ascii :=
  let n := N_of_ascii c in
  if ((65 <=? n) && (n <=? 90))%N then ascii_of_N (n + 32) else c.

Fixpoint ToLower (s : string) : string :=
  match s with
  | EmptyString => EmptyString
  | String c s' => String (lower_byte c) (ToLower s')
  end.

(** [[]byte(s)] *)
Definition bytes_of_string (s : string) : list byte :=
  String.list_byte_of_string s.

(** The verb [%d] of [fmt.Sprintf] on an integer: decimal digits, with a
    leading ['-'] for a negative number. *)
Definition fmt_d (z : Z) : string := pretty z.

(** A Go [error] value, by its message. *)
Definition error : Type := string.

(** [(value, error)] *)
Inductive result (A : Type) : Type :=
| Ok (a : A)
| Err (e : error).
Arguments Ok {A} a.
Arguments Err {A} e.

(** ** crypto/x509 *)

Module x509.

(** [type ExtKeyUsage int] with its constants. *)
Inductive ExtKeyUsageT : Type :=
| ExtKeyUsageAny
| ExtKeyUsageServerAuth
| ExtKeyUsageClientAuth
| ExtKeyUsageCodeSigning
| ExtKeyUsageEmailProtection
| ExtKeyUsageIPSECEndSystem
| ExtKeyUsageIPSECTunnel
| ExtKeyUsageIPSECUser
| ExtKeyUsageTimeStamping
| ExtKeyUsageOCSPSigning
| ExtKeyUsageMicrosoftServerGatedCrypto
| ExtKeyUsageNetscapeServerGatedCrypto.

#[global] Instance ExtKeyUsageT_eq_dec : EqDecision ExtKeyUsageT.
Proof. solve_decision. Defined.

(** The two fields of [x509.Certificate] the registry reads.
    [ExtKeyUsage] is a Go slice: [None] is the [nil] slice, [Some l] a
    slice with the elements [l]. *)
Record Certificate : Type := {
  IsCA : bool;
  ExtKeyUsage : option (list ExtKeyUsageT);
}.

(** [len(c.ExtKeyUsage)] *)
Definition usages (c : Certificate) : list ExtKeyUsageT :=
  match ExtKeyUsage c with
  | None => []
  | Some l => l
  end.

(** The parser of [crypto/x509] fills [ExtKeyUsage] by [append] to a
    [nil] slice, one element per recognised usage: the slice of a parsed
    certificate is [nil] when it has no element. *)
Definition parsed_shape (c : Certificate) : Prop :=
  ExtKeyUsage c <> Some [].

End x509.

(** ** logical *)

Module logical.

(** The values the handlers put in [Response.Data]. *)
Inductive Value : Type :=
| VString (s : string)
| VStrings (l : list string)
| VDuration (d : time.Duration).

(** [logical.Response]: the fields the handlers use. *)
Record Response : Type := {
  Data : gmap string Value;
  Warnings : list string;
}.

(** [var resp logical.Response] *)
Definition zero : Response := {| Data := ∅; Warnings := [] |}.

(** [resp.AddWarning(w)] *)
Definition AddWarning (r : Response) (w : string) : Response :=
  {| Data := Data r; Warnings := Warnings r ++ [w] |}.

(** [logical.ErrorResponse(text)] *)
Definition ErrorResponse (text : string) : Response :=
  {| Data := {[ "error" := VString text ]}; Warnings := [] |}.

(** [resp.IsError()]: the data is the single datum ["error"]. *)
Definition IsError (r : Response) : bool :=
  bool_decide (size (Data r) = 1%nat) &&
  match Data r !! "error" with
  | Some _ => true
  | None => false
  end.

(** [logical.StorageEntry] *)
Record StorageEntry : Type := {
  Key : string;
  Value_ : list byte;
}.

End logical.

(** ** The world a handler runs in *)

(** [store] is the data behind [req.Storage], keyed by storage key.
    [faults] is what the storage layer will answer to the coming calls: each
    call of [Get], [Put] or [Delete] takes the head of the list; [Some e]
    makes that call return the error [e] and leave the data alone, [None]
    (or an exhausted list) lets it go through.  [logged] collects the lines
    given to [b.Logger().Info], latest last. *)
Record World : Type := {
  store : gmap string (list byte);
  faults : list (option error);
  logged : list string;
}.

Definition next_fault (w : World) : option error :=
  match faults w with
  | [] => None
  | f :: _ => f
  end.

(** What a handler hands back: [Reply r] is [return r, nil] (with [None]
    the [nil] response), [Failure e] is [return nil, e]. *)
Inductive outcome : Type :=
| Reply (resp : option logical.Response)
| Failure (e : error).

Definition Handler : Type := World -> outcome * World.

(** A handler body in progress: either it has executed a [return]
    ([inl]), or it goes on with a value ([inr]). *)
Definition Body (A : Type) : Type := World -> (outcome + A) * World.

Definition pure {A} (a : A) : Body A := fun w => (inr a, w).

Definition bind {A B} (m : Body A) (k : A -> Body B) : Body B :=
  fun w =>
    match m w with
    | (inl o, w') => (inl o, w')
    | (inr a, w') => k a w'
    end.

(** [return resp, err] *)
Definition return_ {A} (o : outcome) : Body A := fun w => (inl o, w).

(** [if c { m }] *)
Definition when (c : bool) (m : Body unit) : Body unit :=
  if c then m else pure tt.

(** A function body whose every path ends in a [return]. *)
Definition run (m : Body outcome) : Handler :=
  fun w =>
    match m w with
    | (inl o, w') => (o, w')
    | (inr o, w') => (o, w')
    end.

Declare Scope body_scope.
Delimit Scope body_scope with body.
Notation "x <- m ;; k" := (bind m (fun x => k))
  (at level 100, m at next level, right associativity) : body_scope.
Notation "m ;;; k" := (bind m (fun _ => k))
  (at level 100, right associativity) : body_scope.

(** [b.Logger().Info(msg)] *)
Definition Info (msg : string) : Body unit :=
  fun w =>
    (inr tt, {| store := store w; faults := faults w;
                logged := logged w ++ [msg] |}).

(** *** logical.Storage *)

Definition tick (w : World) (m : gmap string (list byte)) : World :=
  {| store := m; faults := tail (faults w); logged := logged w |}.

(** [s.Get(ctx, key)] *)
Definition Storage_Get (key : string)
  : World -> result (option logical.StorageEntry) * World :=
  fun w =>
    match next_fault w with
    | Some e => (Err e, tick w (store w))
    | None =>
        (Ok (match store w !! key with
             | Some v => Some {| logical.Key := key; logical.Value_ := v |}
             | None => None
             end),
         tick w (store w))
    end.

(** [s.Put(ctx, entry)] *)
Definition Storage_Put (entry : logical.StorageEntry)
  : World -> option error * World :=
  fun w =>
    match next_fault w with
    | Some e => (Some e, tick w (store w))
    | None =>
        (None, tick w (<[logical.Key entry := logical.Value_ entry]> (store w)))
    end.

(** [s.Delete(ctx, key)] *)
Definition Storage_Delete (key : string) : World -> option error * World :=
  fun w =>
    match next_fault w with
    | Some e => (Some e, tick w (store w))
    | None => (None, tick w (delete key (store w)))
    end.

(** Storage calls and other state transformers, used inside a body. *)
Definition call {A} (op : World -> A * World) : Body A :=
  fun w => let '(a, w') := op w in (inr a, w').

(** ** The registry *)

(** [type CertEntry struct] *)
Record CertEntry : Type := {
  Name : string;
  Certificate : string;
  DisplayName : string;
  Policies : list string;
  TTL : time.Duration;
  MaxTTL : time.Duration;
}.

(** [b.System()]: the two lease ceilings of the mount. *)
Record SystemView : Type := {
  DefaultLeaseTTL : time.Duration;
  MaxLeaseTTL : time.Duration;
}.

Record backend : Type := {
  System : SystemView;
}.

(** [d *framework.FieldData] after the schema of [pathCerts] has been
    applied: [Get_x d] is [d.Get("x")] at the Go type the handler asserts
    ([string], [[]string] for the comma-separated slice, [int] seconds for
    the two durations; an omitted field holds its zero value). *)
Record FieldData : Type := {
  Get_name : string;
  Get_certificate : string;
  Get_display_name : string;
  Get_policies : list string;
  Get_ttl : Z;
  Get_max_ttl : Z;
}.

Section Registry.

(** [parsePEM], defined in the login path of the plugin: the PEM blocks
    of the input that hold an X.509 certificate, parsed, in the order of
    the input; no block, no certificate. *)
Variable parsePEM : list byte -> list x509.Certificate.

(** [policyutil.ParsePolicies] *)
Variable ParsePolicies : list string -> list string.

(** The JSON codec at [CertEntry]: [EncodeJSON] is the encoding done by
    [logical.StorageEntryJSON], with the error as that function returns it;
    [DecodeJSON] is the decoding done by [entry.DecodeJSON]. *)
Variable EncodeJSON : CertEntry -> result (list byte).
Variable DecodeJSON : list byte -> result CertEntry.

(** [logical.StorageEntryJSON(k, v)] *)
Definition StorageEntryJSON (k : string) (v : CertEntry)
  : result logical.StorageEntry :=
  match EncodeJSON v with
  | Err e => Err e
  | Ok encodedBytes =>
      Ok {| logical.Key := k; logical.Value_ := encodedBytes |}
  end.

(** [func (b *backend) Cert(ctx, s, n)] *)
Definition Cert (b : backend) (n : string)
  : World -> result (option CertEntry) * World :=
  fun w =>
    let '(got, w') := Storage_Get ("cert/" +:+ ToLower n) w in
    match got with
    | Err err => (Err err, w')
    | Ok None => (Ok None, w')
    | Ok (Some entry) =>
        match DecodeJSON (logical.Value_ entry) with
        | Err err => (Err err, w')
        | Ok result => (Ok (Some result), w')
        end
    end.

(** [func (b *backend) pathCertDelete(ctx, req, d)] *)
Definition pathCertDelete (b : backend) (d : FieldData) : Handler :=
  run (
    err <- call (Storage_Delete ("cert/" +:+ ToLower (Get_name d))) ;;
    match err with
    | Some e => return_ (Failure e)
    | None => return_ (Reply None)
    end)%body.

(** [func (b *backend) pathCertRead(ctx, req, d)] *)
Definition pathCertRead (b : backend) (d : FieldData) : Handler :=
  run (
    got <- call (Cert b (ToLower (Get_name d))) ;;
    match got with
    | Err err => return_ (Failure err)
    | Ok None => return_ (Reply None)
    | Ok (Some cert) =>
        return_ (Reply (Some {|
          logical.Data := {[
            "certificate" := logical.VString (Certificate cert);
            "display_name" := logical.VString (DisplayName cert);
            "policies" := logical.VStrings (Policies cert);
            "ttl" := logical.VDuration (time.div (TTL cert) time.Second);
            "max_ttl" :=
              logical.VDuration (time.div (MaxTTL cert) time.Second) ]};
          logical.Warnings := [] |}))
    end)%body.

(** The loop of [pathCertWrite] over [parsed[0].ExtKeyUsage], started
    with [clientAuth] false: the first [ClientAuth] or [Any] sets it and
    leaves the loop. *)
Fixpoint scan_usages (l : list x509.ExtKeyUsageT) : bool :=
  match l with
  | [] => false
  | usage :: rest =>
      if bool_decide (usage = x509.ExtKeyUsageClientAuth)
         || bool_decide (usage = x509.ExtKeyUsageAny)
      then true
      else scan_usages rest
  end.

(** [func (b *backend) pathCertWrite(ctx, req, d)] *)
Definition pathCertWrite (b : backend) (d : FieldData) : Handler :=
  run (
    Info "actually doing something" ;;;

    let name := ToLower (Get_name d) in
    let certificate := Get_certificate d in
    let displayName := Get_display_name d in
    let policies := ParsePolicies (Get_policies d) in

    Info "parsed something" ;;;

    let resp := logical.zero in

    let systemDefaultTTL := DefaultLeaseTTL (System b) in
    let ttl := time.mul (time.of_int (Get_ttl d)) time.Second in

    let resp :=
      if ttl >? systemDefaultTTL
      then logical.AddWarning resp
             ("Given ttl of " +:+ fmt_d (time.div ttl time.Second) +:+
              " seconds is greater than current mount/system default of "
              +:+ fmt_d (time.div systemDefaultTTL time.Second) +:+
              " seconds")
      else resp in

    when (ttl <? 0)
      (return_ (Reply (Some
         (logical.ErrorResponse "ttl cannot be negative")))) ;;;

    let systemMaxTTL := MaxLeaseTTL (System b) in
    let maxTTL := time.mul (time.of_int (Get_max_ttl d)) time.Second in
    let resp :=
      if maxTTL >? systemMaxTTL
      then logical.AddWarning resp
             ("Given max_ttl of " +:+ fmt_d (time.div maxTTL time.Second)
              +:+
              " seconds is greater than current mount/system default of "
              +:+ fmt_d (time.div systemMaxTTL time.Second) +:+
              " seconds")
      else resp in

    when (maxTTL <? 0)
      (return_ (Reply (Some
         (logical.ErrorResponse "max_ttl cannot be negative")))) ;;;

    when (negb (maxTTL =? 0) && (ttl >? maxTTL))
      (return_ (Reply (Some
         (logical.ErrorResponse "ttl should be shorter than max_ttl")))) ;;;

    let displayName :=
      if bool_decide (displayName = "") then name else displayName in

    Info "parsing pem" ;;;

    match parsePEM (bytes_of_string certificate) with
    | [] =>
        return_ (Reply (Some
          (logical.ErrorResponse "failed to parse certificate")))
    | parsed0 :: _ =>
        Info "parsed pem" ;;;

        when (negb (x509.IsCA parsed0) &&
              match x509.ExtKeyUsage parsed0 with
              | None => false
              | Some l => negb (scan_usages l)
              end)
          (return_ (Reply (Some (logical.ErrorResponse
             "non-CA certificates should have TLS client authentication set as an extended key usage")))) ;;;

        let certEntry := {|
          Name := name;
          Certificate := certificate;
          DisplayName := displayName;
          Policies := policies;
          TTL := ttl;
          MaxTTL := maxTTL |} in

        match StorageEntryJSON ("cert/" +:+ name) certEntry with
        | Err err => return_ (Failure err)
        | Ok entry =>
            err <- call (Storage_Put entry) ;;
            match err with
            | Some err => return_ (Failure err)
            | None =>
                if bool_decide (length (logical.Warnings resp) = 0%nat)
                then return_ (Reply None)
                else return_ (Reply (Some resp))
            end
        end
    end)%body.

End Registry.

(** *** Listing *)

(** [strings.TrimPrefix(key, prefix)] on a key that has the prefix; [None]
    for a key that does not. *)
Fixpoint strip_prefix (prefix key : string) : option string :=
  match prefix with
  | EmptyString => Some key
  | String a prefix' =>
      match key with
      | EmptyString => None
      | String c key' =>
          if Ascii.eqb a c then strip_prefix prefix' key' else None
      end
  end.

(** A key relative to the listed prefix, cut after its first ['/']: the
    storage reports what lies deeper as one folder entry. *)
Fixpoint up_to_slash (s : string) : string :=
  match s with
  | EmptyString => EmptyString
  | String c rest =>
      if Ascii.eqb c "/" then String c EmptyString
      else String c (up_to_slash rest)
  end.

(** [s.List(ctx, prefix)]: the keys under the prefix, relative to it, each
    reported once.  The order is the storage's own. *)
Definition Storage_List (prefix : string)
  : World -> result (list string) * World :=
  fun w =>
    match next_fault w with
    | Some e => (Err e, tick w (store w))
    | None =>
        (Ok (remove_dups
               (omap (fun key => up_to_slash <$> strip_prefix prefix key)
                     (map_to_list (store w)).*1)),
         tick w (store w))
    end.

(** [logical.ListResponse(keys)]: the datum ["keys"] is set when there is
    at least one key. *)
Definition ListResponse (keys : list string) : logical.Response :=
  {| logical.Data :=
       if bool_decide (length keys = 0%nat) then ∅
       else {[ "keys" := logical.VStrings keys ]};
     logical.Warnings := [] |}.

(** [func (b *backend) pathCertList(ctx, req, d)] *)
Definition pathCertList (b : backend) (d : FieldData) : Handler :=
  run (
    got <- call (Storage_List "cert/") ;;
    match got with
    | Err err => return_ (Failure err)
    | Ok certs => return_ (Reply (Some (ListResponse certs)))
    end)%body.

(** ** A test bench

    Stand-ins for the collaborators the registry is parameterised by, small
    enough to run: a certificate notation in place of PEM, a line-based
    codec in place of JSON.  They serve to evaluate the handlers on
    concrete requests. *)

Module Bench.

(** One certificate per [';']-separated block: ['C'] (a CA) or ['L'] (a
    leaf), then one letter per extended key usage: ['c'] client
    authentication, ['s'] server authentication, ['a'] any, ['e'] e-mail
    protection.  A block that does not follow the notation yields no
    certificate. *)
Definition usage_of_letter (c : ascii) : option x509.ExtKeyUsageT :=
  if Ascii.eqb c "c" then Some x509.ExtKeyUsageClientAuth
  else if Ascii.eqb c "s" then Some x509.ExtKeyUsageServerAuth
  else if Ascii.eqb c "a" then Some x509.ExtKeyUsageAny
  else if Ascii.eqb c "e" then Some x509.ExtKeyUsageEmailProtection
  else None.

Fixpoint usages_of_letters (s : string)
  : option (option (list x509.ExtKeyUsageT)) :=
  match s with
  | EmptyString => Some None
  | String c rest =>
      match usage_of_letter c, usages_of_letters rest with
      | Some u, Some None => Some (Some [u])
      | Some u, Some (Some l) => Some (Some (u :: l))
      | _, _ => None
      end
  end.

Definition cert_of_block (s : string) : list x509.Certificate :=
  match s with
  | EmptyString => []
  | String k rest =>
      match usages_of_letters rest with
      | None => []
      | Some us =>
          if Ascii.eqb k "C"
          then [{| x509.IsCA := true; x509.ExtKeyUsage := us |}]
          else if Ascii.eqb k "L"
          then [{| x509.IsCA := false; x509.ExtKeyUsage := us |}]
          else []
      end
  end.

(** Splits at a separator byte. *)
Fixpoint split_on (sep : ascii) (s : string) : list string :=
  match s with
  | EmptyString => [EmptyString]
  | String c rest =>
      match split_on sep rest with
      | [] => [String c EmptyString]
      | hd :: tl =>
          if Ascii.eqb c sep then EmptyString :: hd :: tl
          else String c hd :: tl
      end
  end.

Definition parsePEM (pem : list byte) : list x509.Certificate :=
  mbind cert_of_block (split_on ";" (String.string_of_list_byte pem)).

(** Lower-cases and removes duplicates. *)
Definition ParsePolicies (raw : list string) : list string :=
  remove_dups (ToLower <$> raw).

Fixpoint join (sep : string) (l : list string) : string :=
  match l with
  | [] => ""
  | [x] => x
  | x :: rest => x +:+ sep +:+ join sep rest
  end.

Definition newline : ascii := ascii_of_N 10.

(** One field per line; the policies on one line, comma-separated. *)
Definition EncodeJSON (e : CertEntry) : result (list byte) :=
  Ok (String.list_byte_of_string
        (join (String newline EmptyString)
           [Name e; Certificate e; DisplayName e;
            join "," (Policies e); pretty (TTL e); pretty (MaxTTL e)])).

Fixpoint digits (s : string) (acc : N) : option N :=
  match s with
  | EmptyString => Some acc
  | String c rest =>
      let n := N_of_ascii c in
      if ((48 <=? n) && (n <=? 57))%N
      then digits rest (10 * acc + (n - 48))%N
      else None
  end.

Definition Z_of_string (s : string) : option Z :=
  match s with
  | EmptyString => None
  | String c rest =>
      if Ascii.eqb c "-" then Z.opp <$> (Z.of_N <$> digits rest 0%N)
      else Z.of_N <$> digits s 0%N
  end.

Definition DecodeJSON (blob : list byte) : result CertEntry :=
  match split_on newline (String.string_of_list_byte blob) with
  | [n; c; dn; ps; t; mt] =>
      match Z_of_string t, Z_of_string mt with
      | Some t, Some mt =>
          Ok {| Name := n; Certificate := c; DisplayName := dn;
                Policies := if bool_decide (ps = "") then []
                            else split_on "," ps;
                TTL := t; MaxTTL := mt |}
      | _, _ => Err "invalid duration"
      end
  | _ => Err "unexpected end of input"
  end.

(** A mount with a default lease of 30 seconds and a maximum lease of 60
    seconds. *)
Definition b : backend :=
  {| System := {| DefaultLeaseTTL := 30 * time.Second;
                  MaxLeaseTTL := 60 * time.Second |} |}.

(** An empty storage that reports no failure. *)
Definition fresh : World := {| store := ∅; faults := []; logged := [] |}.

Definition Write := pathCertWrite parsePEM ParsePolicies EncodeJSON.
Definition Read := pathCertRead DecodeJSON.
Definition Delete := pathCertDelete.

Definition request (name cert : string) (ttl max_ttl : Z) : FieldData :=
  {| Get_name := name; Get_certificate := cert; Get_display_name := "";
     Get_policies := ["Default"; "ops"; "default"];
     Get_ttl := ttl; Get_max_ttl := max_ttl |}.

(** Sample requests.  [server_leaf] is a bundle whose first certificate is
    a leaf for server authentication and whose second is a CA. *)
Definition server_leaf : FieldData := request "Example" "Ls;Cc" 10 20.
Definition client_leaf : FieldData := request "Example" "Lsc" 40 50.
Definition negative_ttl : FieldData := request "Example" "Lc" (-5) 20.
Definition negative_max_ttl : FieldData := request "Example" "Lc" 5 (-1).
Definition over_max : FieldData := request "Example" "Lc" 100 50.
Definition unparsed : FieldData := request "Example" "not a certificate" 10 20.
Definition unparsed_negative_ttl : FieldData := request "Example" "" (-1) 0.

End Bench.

(** ** Vocabulary of the statements *)

(** The handler's local variables [ttl] and [maxTTL]: the request's seconds
    as a [time.Duration]. *)
Definition ttl_of (d : FieldData) : time.Duration :=
  time.mul (time.of_int (Get_ttl d)) time.Second.

Definition maxTTL_of (d : FieldData) : time.Duration :=
  time.mul (time.of_int (Get_max_ttl d)) time.Second.

(** A number of seconds whose [time.Duration] is exact: the product with
    [time.Second] stays within 64 bits. *)
Definition exact_seconds (n : Z) : Prop :=
  int64_min <= n * time.Second <= int64_max.

(** The three lease checks of [pathCertWrite] all pass. *)
Definition lease_checks_pass (d : FieldData) : Prop :=
  0 <= ttl_of d /\ 0 <= maxTTL_of d /\
  (maxTTL_of d = 0 \/ ttl_of d <= maxTTL_of d).

(** A leaf certificate that declares extended key usages, none of them
    client authentication or any. *)
Definition lacks_client_auth (c : x509.Certificate) : Prop :=
  x509.IsCA c = false /\
  x509.usages c <> [] /\
  (x509.ExtKeyUsageClientAuth ∉ x509.usages c) /\
  (x509.ExtKeyUsageAny ∉ x509.usages c).

(** The storage key of a name. *)
Definition key_of (n : string) : string := "cert/" +:+ ToLower n.

(** The five messages of a rejected write. *)
Definition msg_ttl_negative : string := "ttl cannot be negative".
Definition msg_max_ttl_negative : string := "max_ttl cannot be negative".
Definition msg_ttl_over_max : string := "ttl should be shorter than max_ttl".
Definition msg_parse : string := "failed to parse certificate".
Definition msg_key_usage : string :=
  "non-CA certificates should have TLS client authentication set as an extended key usage".

(** [InvalidArgument(text)]: a reply that is an error response and no Go
    error. *)
Definition InvalidArgument (text : string) : outcome :=
  Reply (Some (logical.ErrorResponse text)).

(** [s1] occurs in [s2]. *)
Definition mentions (s2 s1 : string) : Prop :=
  exists pre post, s2 = pre +:+ s1 +:+ post.

(** The entry a request asks to persist. *)
Definition requested_entry (ParsePolicies : list string -> list string)
    (d : FieldData) : CertEntry :=
  {| Name := ToLower (Get_name d);
     Certificate := Get_certificate d;
     DisplayName := if bool_decide (Get_display_name d = "")
                    then ToLower (Get_name d) else Get_display_name d;
     Policies := ParsePolicies (Get_policies d);
     TTL := ttl_of d;
     MaxTTL := maxTTL_of d |}.

(** The advisory line about a duration [given] above the ceiling
    [ceiling]. *)
Definition advisory (what : string) (given ceiling : time.Duration) : string :=
  "Given " +:+ what +:+ " of " +:+ fmt_d (time.div given time.Second) +:+
  " seconds is greater than current mount/system default of " +:+
  fmt_d (time.div ceiling time.Second) +:+ " seconds".

(** The advisory lines a request collects, in order. *)
Definition advisories (b : backend) (d : FieldData) : list string :=
  (if ttl_of d >? DefaultLeaseTTL (System b)
   then [advisory "ttl" (ttl_of d) (DefaultLeaseTTL (System b))] else []) ++
  (if maxTTL_of d >? MaxLeaseTTL (System b)
   then [advisory "max_ttl" (maxTTL_of d) (MaxLeaseTTL (System b))] else []).

(** The reply of a write that went through. *)
Definition accepted (b : backend) (d : FieldData) : outcome :=
  match advisories b d with
  | [] => Reply None
  | ws => Reply (Some {| logical.Data := ∅; logical.Warnings := ws |})
  end.

(** The guard of the key-usage rule, as [pathCertWrite] evaluates it on
    [parsed[0]]. *)
Definition usage_guard (c : x509.Certificate) : bool :=
  negb (x509.IsCA c) &&
  match x509.ExtKeyUsage c with
  | Some l => negb (scan_usages l)
  | None => false
  end.

(** The check that turns a request down, by its message: the checks come
    in the order of the handler, each one under the condition that the
    earlier ones let the request through. *)
Inductive rejects (parsePEM : list byte -> list x509.Certificate)
    (d : FieldData) : string -> Prop :=
| rejects_ttl_negative :
    ttl_of d < 0 -> rejects parsePEM d msg_ttl_negative
| rejects_max_ttl_negative :
    0 <= ttl_of d -> maxTTL_of d < 0 ->
    rejects parsePEM d msg_max_ttl_negative
| rejects_ttl_over_max :
    0 <= ttl_of d -> 0 < maxTTL_of d -> maxTTL_of d < ttl_of d ->
    rejects parsePEM d msg_ttl_over_max
| rejects_parse :
    lease_checks_pass d ->
    parsePEM (bytes_of_string (Get_certificate d)) = [] ->
    rejects parsePEM d msg_parse
| rejects_key_usage c rest :
    lease_checks_pass d ->
    parsePEM (bytes_of_string (Get_certificate d)) = c :: rest ->
    usage_guard c = true ->
    rejects parsePEM d msg_key_usage.

(** The request passes every check of [pathCertWrite]. *)
Definition admitted (parsePEM : list byte -> list x509.Certificate)
    (d : FieldData) : Prop :=
  lease_checks_pass d /\
  exists c rest,
    parsePEM (bytes_of_string (Get_certificate d)) = c :: rest /\
    usage_guard c = false.

(** The handler completed the operation: no Go error and no error
    response. *)
Definition succeeds (o : outcome) : Prop :=
  match o with
  | Reply None => True
  | Reply (Some r) => logical.IsError r = false
  | Failure _ => False
  end.

(** The handler ended in a Go error (a storage or serialisation failure). *)
Definition storage_failure (o : outcome) : Prop :=
  exists e, o = Failure e.

(** The reply of a read that found the entry [e]. *)
Definition found (e : CertEntry) : outcome :=
  Reply (Some {|
    logical.Data := {[
      "certificate" := logical.VString (Certificate e);
      "display_name" := logical.VString (DisplayName e);
      "policies" := logical.VStrings (Policies e);
      "ttl" := logical.VDuration (time.div (TTL e) time.Second);
      "max_ttl" := logical.VDuration (time.div (MaxTTL e) time.Second) ]};
    logical.Warnings := [] |}).

(** A request that carries only a name, as read and delete use it. *)
Definition named (n : string) : FieldData :=
  {| Get_name := n; Get_certificate := ""; Get_display_name := "";
     Get_policies := []; Get_ttl := 0; Get_max_ttl := 0 |}.

(** The names a list reply carries: its ["keys"] datum, nothing when the
    datum is absent. *)
Definition listed (o : outcome) : list string :=
  match o with
  | Reply (Some r) =>
      match logical.Data r !! "keys" with
      | Some (logical.VStrings l) => l
      | _ => []
      end
  | _ => []
  end.

(** No byte of the string is ['/']. *)
Fixpoint slash_free (s : string) : bool :=
  match s with
  | EmptyString => true
  | String c rest => negb (Ascii.eqb c "/") && slash_free rest
  end.

(** The byte is one of ['A'..'Z']. *)
Definition is_upper (c : ascii) : bool :=
  ((65 <=? N_of_ascii c) && (N_of_ascii c <=? 90))%N.

(** Some byte of the string is one of ['A'..'Z']. *)
Fixpoint has_upper (s : string) : bool :=
  match s with
  | EmptyString => false
  | String c rest => is_upper c || has_upper rest
  end.

(** The first certificate may authenticate a client as far as the
    key-usage rule goes: a CA, a certificate without extended key usage,
    or one that lists client authentication or any. *)
Definition usable_for_client_auth (c : x509.Certificate) : Prop :=
  x509.IsCA c = true \/ x509.ExtKeyUsage c = None \/
  (x509.ExtKeyUsageClientAuth ∈ x509.usages c) \/
  (x509.ExtKeyUsageAny ∈ x509.usages c).

(** A request for [List]: it carries no field. *)
Definition no_fields : FieldData :=
  {| Get_name := ""; Get_certificate := ""; Get_display_name := "";
     Get_policies := []; Get_ttl := 0; Get_max_ttl := 0 |}.

(** Further sample requests of the bench. *)
Definition long_lease : FieldData := Bench.request "Example" "Lc" 40 90.
Definition upper_case_ca : FieldData := Bench.request "EXAMPLE" "C" 10 20.
Definition zero_lease : FieldData := Bench.request "zero" "C" 0 0.

(** ** Arithmetic of durations *)

Lemma wrap64_exact z : in_int64 z -> wrap64 z = z.
Proof.
  unfold in_int64, int64_min, int64_max, wrap64. intros H.
  rewrite Z.mod_small; lia.
Qed.

Lemma wrap64_bounds z : in_int64 (wrap64 z).
Proof.
  unfold in_int64, int64_min, int64_max, wrap64.
  pose proof (Z.mod_pos_bound (z + 2 ^ 63) (2 ^ 64) ltac:(lia)). lia.
Qed.

Lemma exact_seconds_in_int64 n : exact_seconds n -> in_int64 n.
Proof.
  unfold exact_seconds, in_int64, int64_min, int64_max, time.Second. lia.
Qed.

Lemma duration_of_exact_seconds n :
  exact_seconds n -> time.mul (time.of_int n) time.Second = n * time.Second.
Proof.
  intros H. unfold time.mul, time.of_int.
  rewrite (wrap64_exact n) by now apply exact_seconds_in_int64.
  now apply wrap64_exact.
Qed.

Lemma seconds_of_exact_duration n :
  exact_seconds n ->
  time.div (time.mul (time.of_int n) time.Second) time.Second = n.
Proof.
  intros H. rewrite duration_of_exact_seconds by done.
  unfold time.div, time.Second.
  rewrite Z.quot_mul by lia.
  apply wrap64_exact. now apply exact_seconds_in_int64.
Qed.

(** For a request whose seconds fit a [time.Duration], the handler's
    variable has the sign of the request field. *)
Lemma negative_seconds_iff n :
  exact_seconds n ->
  time.mul (time.of_int n) time.Second < 0 <-> n < 0.
Proof.
  intros H. rewrite duration_of_exact_seconds by done.
  unfold time.Second. lia.
Qed.

(** Beyond that range the product wraps around: a request for
    -9223372037 seconds gives a positive [ttl]. *)
Lemma seconds_wrap_around :
  0 < time.mul (time.of_int (-9223372037)) time.Second.
Proof. reflexivity. Qed.

(** ** Lower-casing *)

Lemma lower_byte_idem c : lower_byte (lower_byte c) = lower_byte c.
Proof. destruct c as [[] [] [] [] [] [] [] []]; reflexivity. Qed.

Lemma ToLower_idem s : ToLower (ToLower s) = ToLower s.
Proof.
  induction s as [|c s IH]; simpl; [done|].
  now rewrite lower_byte_idem, IH.
Qed.

Lemma key_of_ToLower n : key_of (ToLower n) = key_of n.
Proof. unfold key_of. now rewrite ToLower_idem. Qed.

(** ** The usage loop *)

Lemma scan_usages_true l :
  scan_usages l = true <->
  (x509.ExtKeyUsageClientAuth ∈ l) \/ (x509.ExtKeyUsageAny ∈ l).
Proof.
  induction l as [|u l IH]; simpl.
  - split; [done|]. intros [H|H]; inversion H.
  - destruct (bool_decide_reflect (u = x509.ExtKeyUsageClientAuth)) as [->|Hc];
      simpl.
    { split; [|done]. intros _. left. apply list_elem_of_here. }
    destruct (bool_decide_reflect (u = x509.ExtKeyUsageAny)) as [->|Ha]; simpl.
    { split; [|done]. intros _. right. apply list_elem_of_here. }
    rewrite IH, !elem_of_cons. intuition congruence.
Qed.

Lemma scan_usages_false l :
  scan_usages l = false <->
  (x509.ExtKeyUsageClientAuth ∉ l) /\ (x509.ExtKeyUsageAny ∉ l).
Proof.
  rewrite <- not_true_iff_false, scan_usages_true. tauto.
Qed.

(** ** Responses *)

Lemma IsError_ErrorResponse text :
  logical.IsError (logical.ErrorResponse text) = true.
Proof.
  unfold logical.IsError, logical.ErrorResponse. simpl.
  rewrite map_size_singleton, lookup_singleton_eq.
  now rewrite bool_decide_eq_true_2.
Qed.

Lemma ErrorResponse_inj text text' :
  logical.ErrorResponse text = logical.ErrorResponse text' -> text = text'.
Proof.
  intros H.
  apply (f_equal (fun r => logical.Data r !! "error")) in H. simpl in H.
  rewrite !lookup_singleton_eq in H. congruence.
Qed.

Lemma InvalidArgument_inj text text' :
  InvalidArgument text = InvalidArgument text' -> text = text'.
Proof.
  unfold InvalidArgument. intros H. apply ErrorResponse_inj. congruence.
Qed.

Lemma InvalidArgument_fails text : ~ succeeds (InvalidArgument text).
Proof.
  unfold succeeds, InvalidArgument. now rewrite IsError_ErrorResponse.
Qed.

Lemma storage_failure_fails o : storage_failure o -> ~ succeeds o.
Proof. intros [e ->]. simpl. tauto. Qed.

Lemma accepted_succeeds b d : succeeds (accepted b d).
Proof.
  unfold accepted. destruct (advisories b d); simpl; [done|].
  unfold logical.IsError. simpl. now rewrite lookup_empty, andb_false_r.
Qed.

Lemma accepted_not_error b d r :
  accepted b d = Reply (Some r) -> logical.IsError r = false.
Proof.
  intros H. pose proof (accepted_succeeds b d) as Hs. now rewrite H in Hs.
Qed.

(** ** Strings *)

Lemma append_assoc (a b c : string) : (a +:+ b) +:+ c = a +:+ b +:+ c.
Proof.
  induction a as [|x a IH]; [reflexivity|].
  change (String x ((a +:+ b) +:+ c) = String x (a +:+ b +:+ c)).
  now f_equal.
Qed.

Lemma mentions_middle pre s post : mentions (pre +:+ s +:+ post) s.
Proof. now exists pre, post. Qed.

Lemma advisory_mentions_given what given ceiling :
  mentions (advisory what given ceiling)
           (fmt_d (time.div given time.Second)).
Proof.
  unfold advisory. exists ("Given " +:+ what +:+ " of "). eexists.
  now rewrite !append_assoc.
Qed.

Lemma advisory_mentions_ceiling what given ceiling :
  mentions (advisory what given ceiling)
           (fmt_d (time.div ceiling time.Second)).
Proof.
  unfold advisory.
  exists ("Given " +:+ what +:+ " of " +:+
          fmt_d (time.div given time.Second) +:+
          " seconds is greater than current mount/system default of ").
  exists " seconds". now rewrite !append_assoc.
Qed.

(** ** The key-usage guard *)

Lemma usage_guard_true c :
  x509.parsed_shape c ->
  usage_guard c = true <-> lacks_client_auth c.
Proof.
  unfold x509.parsed_shape, usage_guard, lacks_client_auth, x509.usages.
  intros Hshape. destruct (x509.IsCA c), (x509.ExtKeyUsage c) as [l|]; simpl.
  - split; [done|]. now intros [? _].
  - split; [done|]. now intros [? _].
  - rewrite negb_true_iff, scan_usages_false. split.
    + intros [? ?]. repeat split; [congruence|done|done].
    + now intros (_ & _ & ? & ?).
  - split; [done|]. now intros (_ & ? & _).
Qed.

Lemma usage_guard_exempt c :
  x509.IsCA c = true \/ x509.ExtKeyUsage c = None -> usage_guard c = false.
Proof.
  unfold usage_guard. intros [-> | ->]; [done|]. apply andb_false_r.
Qed.

(** ** Running a write, check by check *)

Section Write.

Variable parsePEM : list byte -> list x509.Certificate.
Variable ParsePolicies : list string -> list string.
Variable EncodeJSON : CertEntry -> result (list byte).

Abbreviation Write := (pathCertWrite parsePEM ParsePolicies EncodeJSON).

Ltac open_write d :=
  unfold pathCertWrite; cbv zeta;
  fold (ttl_of d) (maxTTL_of d).

Lemma lease_checks_bools d :
  lease_checks_pass d ->
  (ttl_of d <? 0) = false /\ (maxTTL_of d <? 0) = false /\
  (negb (maxTTL_of d =? 0) && (ttl_of d >? maxTTL_of d)) = false.
Proof.
  intros (H1 & H2 & H3). repeat split; [lia | lia |].
  destruct (Z.eqb_spec (maxTTL_of d) 0); simpl; [done | lia].
Qed.

Lemma Write_ttl_negative b d w :
  ttl_of d < 0 ->
  fst (Write b d w) = InvalidArgument msg_ttl_negative /\
  store (snd (Write b d w)) = store w /\
  faults (snd (Write b d w)) = faults w.
Proof.
  intros H. apply Z.ltb_lt in H. open_write d. rewrite H.
  repeat split; reflexivity.
Qed.

Lemma Write_max_ttl_negative b d w :
  0 <= ttl_of d -> maxTTL_of d < 0 ->
  fst (Write b d w) = InvalidArgument msg_max_ttl_negative /\
  store (snd (Write b d w)) = store w /\
  faults (snd (Write b d w)) = faults w.
Proof.
  intros H1 H2. apply Z.ltb_ge in H1. apply Z.ltb_lt in H2.
  open_write d. rewrite H1, H2. repeat split; reflexivity.
Qed.

Lemma Write_ttl_over_max b d w :
  0 <= ttl_of d -> 0 < maxTTL_of d -> maxTTL_of d < ttl_of d ->
  fst (Write b d w) = InvalidArgument msg_ttl_over_max /\
  store (snd (Write b d w)) = store w /\
  faults (snd (Write b d w)) = faults w.
Proof.
  intros H1 H2 H3.
  assert (E1 : (ttl_of d <? 0) = false) by lia.
  assert (E2 : (maxTTL_of d <? 0) = false) by lia.
  assert (E3 : (maxTTL_of d =? 0) = false) by lia.
  assert (E4 : (ttl_of d >? maxTTL_of d) = true) by lia.
  open_write d. rewrite E1, E2, E3, E4. repeat split; reflexivity.
Qed.

Lemma Write_unparsed b d w :
  lease_checks_pass d ->
  parsePEM (bytes_of_string (Get_certificate d)) = [] ->
  fst (Write b d w) = InvalidArgument msg_parse /\
  store (snd (Write b d w)) = store w /\
  faults (snd (Write b d w)) = faults w.
Proof.
  intros H Hp. destruct (lease_checks_bools d H) as (E1 & E2 & E3).
  open_write d. rewrite E1, E2, E3, Hp. repeat split; reflexivity.
Qed.

Lemma Write_usage_rejected b d w c rest :
  lease_checks_pass d ->
  parsePEM (bytes_of_string (Get_certificate d)) = c :: rest ->
  usage_guard c = true ->
  fst (Write b d w) = InvalidArgument msg_key_usage /\
  store (snd (Write b d w)) = store w /\
  faults (snd (Write b d w)) = faults w.
Proof.
  intros H Hp Hg. destruct (lease_checks_bools d H) as (E1 & E2 & E3).
  unfold usage_guard in Hg.
  open_write d. rewrite E1, E2, E3, Hp. cbv beta iota. rewrite Hg.
  repeat split; reflexivity.
Qed.

Lemma Write_encode_error b d w e :
  admitted parsePEM d ->
  EncodeJSON (requested_entry ParsePolicies d) = Err e ->
  fst (Write b d w) = Failure e /\
  store (snd (Write b d w)) = store w /\
  faults (snd (Write b d w)) = faults w.
Proof.
  intros (H & c & rest & Hp & Hg) He.
  destruct (lease_checks_bools d H) as (E1 & E2 & E3).
  unfold usage_guard in Hg. unfold requested_entry in He.
  open_write d. rewrite E1, E2, E3, Hp. cbv beta iota. rewrite Hg.
  unfold StorageEntryJSON. rewrite He. repeat split; reflexivity.
Qed.

Lemma Write_put_error b d w blob e :
  admitted parsePEM d ->
  EncodeJSON (requested_entry ParsePolicies d) = Ok blob ->
  next_fault w = Some e ->
  fst (Write b d w) = Failure e /\
  store (snd (Write b d w)) = store w /\
  faults (snd (Write b d w)) = tail (faults w).
Proof.
  intros (H & c & rest & Hp & Hg) He Hf.
  destruct (lease_checks_bools d H) as (E1 & E2 & E3).
  unfold usage_guard in Hg. unfold requested_entry in He.
  assert (Hf' : forall l, next_fault
            {| store := store w; faults := faults w; logged := l |}
            = Some e) by (intros l; exact Hf).
  open_write d. rewrite E1, E2, E3, Hp. cbv beta iota. rewrite Hg.
  unfold StorageEntryJSON. rewrite He.
  unfold run, bind, when, Info, call, Storage_Put, pure. cbv beta iota.
  rewrite Hf'. repeat split; reflexivity.
Qed.

Lemma Write_stored b d w blob :
  admitted parsePEM d ->
  EncodeJSON (requested_entry ParsePolicies d) = Ok blob ->
  next_fault w = None ->
  fst (Write b d w) = accepted b d /\
  store (snd (Write b d w)) = <[key_of (Get_name d) := blob]> (store w) /\
  faults (snd (Write b d w)) = tail (faults w).
Proof.
  intros (H & c & rest & Hp & Hg) He Hf.
  destruct (lease_checks_bools d H) as (E1 & E2 & E3).
  unfold usage_guard in Hg. unfold requested_entry in He.
  assert (Hf' : forall l, next_fault
            {| store := store w; faults := faults w; logged := l |}
            = None) by (intros l; exact Hf).
  open_write d. rewrite E1, E2, E3, Hp. cbv beta iota. rewrite Hg.
  unfold StorageEntryJSON. rewrite He.
  unfold run, bind, when, Info, call, Storage_Put, pure. cbv beta iota.
  rewrite Hf'. unfold accepted, advisories.
  destruct (maxTTL_of d >? MaxLeaseTTL (System b));
    destruct (ttl_of d >? DefaultLeaseTTL (System b));
    repeat split; reflexivity.
Qed.

(** Every run of a write is a rejection, a storage failure, or a stored
    entry. *)
Lemma Write_runs b d w :
  (exists msg, rejects parsePEM d msg /\
     fst (Write b d w) = InvalidArgument msg /\
     store (snd (Write b d w)) = store w /\
     faults (snd (Write b d w)) = faults w)
  \/ (admitted parsePEM d /\
      (exists e, EncodeJSON (requested_entry ParsePolicies d) = Err e \/
                 (exists blob,
                    EncodeJSON (requested_entry ParsePolicies d) = Ok blob) /\
                 next_fault w = Some e) /\
      storage_failure (fst (Write b d w)) /\
      store (snd (Write b d w)) = store w)
  \/ (admitted parsePEM d /\
      exists blob,
        EncodeJSON (requested_entry ParsePolicies d) = Ok blob /\
        next_fault w = None /\
        fst (Write b d w) = accepted b d /\
        store (snd (Write b d w)) = <[key_of (Get_name d) := blob]> (store w) /\
        faults (snd (Write b d w)) = tail (faults w)).
Proof.
  destruct (Z.lt_ge_cases (ttl_of d) 0) as [H1|H1].
  { left. exists msg_ttl_negative. split; [now constructor|].
    now apply Write_ttl_negative. }
  destruct (Z.lt_ge_cases (maxTTL_of d) 0) as [H2|H2].
  { left. exists msg_max_ttl_negative. split; [now constructor|].
    now apply Write_max_ttl_negative. }
  destruct (Z.eq_dec (maxTTL_of d) 0) as [H3|H3];
    [|destruct (Z.lt_ge_cases (maxTTL_of d) (ttl_of d)) as [H4|H4]].
  2:{ left. exists msg_ttl_over_max. split; [constructor; lia|].
      apply Write_ttl_over_max; lia. }
  all: assert (Hl : lease_checks_pass d).
  1,3: unfold lease_checks_pass; lia.
  all: destruct (parsePEM (bytes_of_string (Get_certificate d)))
         as [|c rest] eqn:Hp.
  all: try (left; exists msg_parse; split; [now apply rejects_parse|];
            now apply Write_unparsed).
  all: destruct (usage_guard c) eqn:Hg.
  all: try (left; exists msg_key_usage;
            split; [now apply (rejects_key_usage _ _ c rest)|];
            now apply (Write_usage_rejected b d w c rest)).
  all: assert (Ha : admitted parsePEM d);
         [split; [done|]; exists c, rest; now split|].
  all: right.
  all: destruct (EncodeJSON (requested_entry ParsePolicies d))
         as [blob|e] eqn:He.
  all: try (left; split; [done|];
            destruct (Write_encode_error b d w e Ha He) as (F & S & _);
            split; [exists e; now left|]; split; [now exists e|done]).
  all: destruct (next_fault w) as [e|] eqn:Hf.
  all: try (left; split; [done|];
            destruct (Write_put_error b d w blob e Ha He Hf) as (F & S & _);
            split; [exists e; right; eauto|]; split; [now exists e|done]).
  all: right; split; [done|]; exists blob; do 2 (split; [done|]);
       now apply Write_stored.
Qed.

Lemma rejects_not_admitted d msg :
  rejects parsePEM d msg -> admitted parsePEM d -> False.
Proof.
  intros Hr ((H1 & H2 & H3) & c & rest & Hp & Hg).
  destruct Hr as [?|?|?|? Hp'|c' rest' ? Hp' Hg']; try lia.
  - congruence.
  - rewrite Hp in Hp'. injection Hp' as <- <-. congruence.
Qed.

Lemma rejects_functional d msg msg' :
  rejects parsePEM d msg -> rejects parsePEM d msg' -> msg = msg'.
Proof.
  intros H H'.
  destruct H as [?|?|?|[? [? ?]] Hp|c rest [? [? ?]] Hp Hg];
    destruct H' as [?|?|?|[? [? ?]] Hp'|c' rest' [? [? ?]] Hp' Hg'];
    try reflexivity; try lia; congruence.
Qed.

End Write.

(** ** Reading and deleting *)

Section Lookup.

Variable DecodeJSON : list byte -> result CertEntry.

Abbreviation Read := (pathCertRead DecodeJSON).

Lemma Read_by_key b d d' w :
  ToLower (Get_name d) = ToLower (Get_name d') ->
  Read b d w = Read b d' w.
Proof. intros H. unfold pathCertRead. now rewrite H. Qed.

Lemma Read_absent b d w :
  next_fault w = None ->
  store w !! key_of (Get_name d) = None ->
  fst (Read b d w) = Reply None /\ store (snd (Read b d w)) = store w.
Proof.
  intros Hf Hk. unfold key_of in Hk.
  unfold pathCertRead, run, bind, call, Cert, Storage_Get.
  rewrite ToLower_idem, Hf, Hk. now split.
Qed.

Lemma Read_present b d w blob e :
  next_fault w = None ->
  store w !! key_of (Get_name d) = Some blob ->
  DecodeJSON blob = Ok e ->
  fst (Read b d w) = found e /\ store (snd (Read b d w)) = store w.
Proof.
  intros Hf Hk He. unfold key_of in Hk.
  unfold pathCertRead, run, bind, call, Cert, Storage_Get.
  rewrite ToLower_idem, Hf, Hk. simpl. rewrite He. now split.
Qed.

Lemma Read_fault b d w e :
  next_fault w = Some e ->
  fst (Read b d w) = Failure e /\ store (snd (Read b d w)) = store w.
Proof.
  intros Hf. unfold pathCertRead, run, bind, call, Cert, Storage_Get.
  rewrite Hf. now split.
Qed.

Lemma Delete_ok b d w :
  next_fault w = None ->
  fst (pathCertDelete b d w) = Reply None /\
  store (snd (pathCertDelete b d w)) = delete (key_of (Get_name d)) (store w).
Proof.
  intros Hf. unfold pathCertDelete, run, bind, call, Storage_Delete.
  rewrite Hf. now split.
Qed.

Lemma Delete_fault b d w e :
  next_fault w = Some e ->
  fst (pathCertDelete b d w) = Failure e /\
  store (snd (pathCertDelete b d w)) = store w.
Proof.
  intros Hf. unfold pathCertDelete, run, bind, call, Storage_Delete.
  rewrite Hf. now split.
Qed.

End Lookup.

(** ** The registry's contract *)

Section Contract.

Variable parsePEM : list byte -> list x509.Certificate.
Variable ParsePolicies : list string -> list string.
Variable EncodeJSON : CertEntry -> result (list byte).
Variable DecodeJSON : list byte -> result CertEntry.

Abbreviation Write' := (pathCertWrite parsePEM ParsePolicies EncodeJSON).
Abbreviation Read' := (pathCertRead DecodeJSON).

Lemma five_messages d msg :
  rejects parsePEM d msg ->
  msg ∈ [msg_ttl_negative; msg_max_ttl_negative; msg_ttl_over_max;
         msg_parse; msg_key_usage].
Proof. intros []; set_solver. Qed.

(** A write answers [InvalidArgument(msg)] exactly when the check of that
    message turns the request down. *)
Lemma Write_rejected_iff b d w msg :
  fst (Write' b d w) = InvalidArgument msg <-> rejects parsePEM d msg.
Proof.
  split.
  - intros H.
    destruct (Write_runs parsePEM ParsePolicies EncodeJSON b d w)
      as [(m & Hr & Ho & _) | [(_ & _ & Hf & _) | (_ & blob & _ & _ & Ho & _)]].
    + rewrite H in Ho. now apply InvalidArgument_inj in Ho as ->.
    + destruct Hf as [e He]. rewrite H in He. discriminate He.
    + exfalso. apply (InvalidArgument_fails msg).
      rewrite <- H, Ho. apply accepted_succeeds.
  - intros Hr.
    destruct (Write_runs parsePEM ParsePolicies EncodeJSON b d w)
      as [(m & Hr' & Ho & _) | [(Ha & _) | (Ha & _)]].
    + now rewrite (rejects_functional parsePEM d msg m).
    + destruct (rejects_not_admitted parsePEM d msg Hr Ha).
    + destruct (rejects_not_admitted parsePEM d msg Hr Ha).
Qed.

(** A rejected write leaves the stored data alone. *)
Lemma Write_rejected_store b d w msg :
  rejects parsePEM d msg -> store (snd (Write' b d w)) = store w.
Proof.
  intros Hr.
  destruct (Write_runs parsePEM ParsePolicies EncodeJSON b d w)
    as [(m & _ & _ & Hs & _) | [(Ha & _) | (Ha & _)]]; [done| |];
    destruct (rejects_not_admitted parsePEM d msg Hr Ha).
Qed.

(** A write that succeeds has stored the encoding of the requested
    entry. *)
Lemma Write_succeeds_inv b d w :
  succeeds (fst (Write' b d w)) ->
  admitted parsePEM d /\
  exists blob,
    EncodeJSON (requested_entry ParsePolicies d) = Ok blob /\
    fst (Write' b d w) = accepted b d /\
    store (snd (Write' b d w)) = <[key_of (Get_name d) := blob]> (store w).
Proof.
  intros Hs.
  destruct (Write_runs parsePEM ParsePolicies EncodeJSON b d w)
    as [(m & _ & Ho & _) | [(_ & _ & Hf & _) |
        (Ha & blob & He & _ & Ho & Hst & _)]].
  - rewrite Ho in Hs. destruct (InvalidArgument_fails m Hs).
  - destruct (storage_failure_fails _ Hf Hs).
  - split; [done|]. now exists blob.
Qed.

(** C1.  Once the lease checks have passed, the key-usage rule looks at
    the first parsed certificate only: the write answers
    [InvalidArgument("non-CA certificates should have TLS client
    authentication set as an extended key usage")] exactly when that
    certificate is not a CA, lists at least one extended key usage, and
    lists neither client authentication nor any.  A CA certificate, and a
    leaf certificate without extended key usage, go on to be stored: with a
    storage that works the write succeeds and the entry is in place.  The
    certificates after the first play no part: a parser that yields the same
    first certificate gives the same run. *)
Theorem key_usage_rule b d w c rest :
  lease_checks_pass d ->
  parsePEM (bytes_of_string (Get_certificate d)) = c :: rest ->
  x509.parsed_shape c ->
  (fst (Write' b d w) = InvalidArgument msg_key_usage <->
   lacks_client_auth c) /\
  (x509.IsCA c = true \/ x509.usages c = [] ->
   forall blob,
     EncodeJSON (requested_entry ParsePolicies d) = Ok blob ->
     next_fault w = None ->
     succeeds (fst (Write' b d w)) /\
     store (snd (Write' b d w)) !! key_of (Get_name d) = Some blob) /\
  (forall parsePEM' : list byte -> list x509.Certificate,
     head (parsePEM' (bytes_of_string (Get_certificate d))) = Some c ->
     pathCertWrite parsePEM' ParsePolicies EncodeJSON b d w = Write' b d w).
Proof.
  intros Hl Hp Hshape. split; [|split].
  - rewrite Write_rejected_iff, <- (usage_guard_true c Hshape). split.
    + intros Hr. inversion Hr as [| | | |c' rest' _ Hp' Hg]; subst.
      rewrite Hp in Hp'. now injection Hp' as <- <-.
    + intros Hg. now apply (rejects_key_usage _ _ c rest).
  - intros Hex blob He Hf.
    assert (Hg : usage_guard c = false).
    { apply usage_guard_exempt. destruct Hex as [?|Hu]; [now left|right].
      unfold x509.usages in Hu. unfold x509.parsed_shape in Hshape.
      destruct (x509.ExtKeyUsage c); [congruence|done]. }
    assert (Ha : admitted parsePEM d).
    { split; [done|]. now exists c, rest. }
    destruct (Write_stored parsePEM ParsePolicies EncodeJSON b d w blob
                Ha He Hf) as (Ho & Hs & _).
    rewrite Ho, Hs. split; [apply accepted_succeeds|apply lookup_insert_eq].
  - intros parsePEM' Hh. unfold pathCertWrite. rewrite Hp.
    destruct (parsePEM' (bytes_of_string (Get_certificate d)))
      as [|c' rest']; [discriminate Hh|].
    simpl in Hh. now injection Hh as ->.
Qed.

(** C2.  A write whose [ttl] or whose [maxTTL] is negative answers
    [InvalidArgument]: ["ttl cannot be negative"] when [ttl] is negative,
    ["max_ttl cannot be negative"] when only [maxTTL] is; the stored data
    is what it was. *)
Theorem negative_lease_rejected b d w :
  ttl_of d < 0 \/ maxTTL_of d < 0 ->
  fst (Write' b d w) =
    InvalidArgument
      (if ttl_of d <? 0 then msg_ttl_negative else msg_max_ttl_negative) /\
  store (snd (Write' b d w)) = store w.
Proof.
  intros H. destruct (Z.ltb_spec (ttl_of d) 0) as [H1|H1].
  - now destruct (Write_ttl_negative parsePEM ParsePolicies EncodeJSON
                    b d w H1) as (? & ? & _).
  - assert (H2 : maxTTL_of d < 0) by lia.
    now destruct (Write_max_ttl_negative parsePEM ParsePolicies EncodeJSON
                    b d w H1 H2) as (? & ? & _).
Qed.

(** C3, as the handler has it.  A write with [maxTTL != 0] and
    [ttl > maxTTL] answers [InvalidArgument] and stores nothing, whatever
    the ceilings of the mount; the message is ["ttl should be shorter than
    max_ttl"] when neither duration is negative, and the message of the
    negative duration otherwise, since those two checks come first. *)
Theorem ttl_over_max_rejected b d w :
  maxTTL_of d <> 0 -> ttl_of d > maxTTL_of d ->
  fst (Write' b d w) =
    InvalidArgument
      (if ttl_of d <? 0 then msg_ttl_negative
       else if maxTTL_of d <? 0 then msg_max_ttl_negative
       else msg_ttl_over_max) /\
  store (snd (Write' b d w)) = store w.
Proof.
  intros H0 H.
  destruct (Z.ltb_spec (ttl_of d) 0) as [H1|H1];
    [|destruct (Z.ltb_spec (maxTTL_of d) 0) as [H2|H2]].
  - now destruct (Write_ttl_negative parsePEM ParsePolicies EncodeJSON
                    b d w H1) as (? & ? & _).
  - now destruct (Write_max_ttl_negative parsePEM ParsePolicies EncodeJSON
                    b d w H1 H2) as (? & ? & _).
  - assert (H3 : 0 < maxTTL_of d) by lia.
    assert (H4 : maxTTL_of d < ttl_of d) by lia.
    now destruct (Write_ttl_over_max parsePEM ParsePolicies EncodeJSON
                    b d w H1 H3 H4) as (? & ? & _).
Qed.

(** C4, as the handler has it.  A write whose certificate parses to no
    X.509 record answers [InvalidArgument] and stores nothing; the message
    is ["failed to parse certificate"] exactly when the three lease checks
    pass, and the message of the first lease check that fails otherwise:
    ["ttl cannot be negative"] for a negative [ttl], else ["max_ttl cannot
    be negative"] for a negative [maxTTL], else ["ttl should be shorter
    than max_ttl"] for a [ttl] above a [maxTTL] other than zero. *)
Theorem unparsed_certificate_rejected b d w :
  parsePEM (bytes_of_string (Get_certificate d)) = [] ->
  (exists msg,
     fst (Write' b d w) = InvalidArgument msg /\
     msg ∈ [msg_ttl_negative; msg_max_ttl_negative; msg_ttl_over_max;
            msg_parse]) /\
  (lease_checks_pass d -> fst (Write' b d w) = InvalidArgument msg_parse) /\
  (fst (Write' b d w) = InvalidArgument msg_parse -> lease_checks_pass d) /\
  (ttl_of d < 0 ->
   fst (Write' b d w) = InvalidArgument msg_ttl_negative) /\
  (0 <= ttl_of d -> maxTTL_of d < 0 ->
   fst (Write' b d w) = InvalidArgument msg_max_ttl_negative) /\
  (0 <= ttl_of d -> 0 < maxTTL_of d -> maxTTL_of d < ttl_of d ->
   fst (Write' b d w) = InvalidArgument msg_ttl_over_max) /\
  fst (Write' b d w) =
    InvalidArgument
      (if ttl_of d <? 0 then msg_ttl_negative
       else if maxTTL_of d <? 0 then msg_max_ttl_negative
       else if negb (maxTTL_of d =? 0) && (ttl_of d >? maxTTL_of d)
            then msg_ttl_over_max
       else msg_parse) /\
  store (snd (Write' b d w)) = store w.
Proof.
  intros Hp.
  assert (Hexact : rejects parsePEM d
            (if ttl_of d <? 0 then msg_ttl_negative
             else if maxTTL_of d <? 0 then msg_max_ttl_negative
             else if negb (maxTTL_of d =? 0) && (ttl_of d >? maxTTL_of d)
                  then msg_ttl_over_max
             else msg_parse)).
  { destruct (Z.ltb_spec (ttl_of d) 0) as [H1|H1];
      [now apply rejects_ttl_negative|].
    destruct (Z.ltb_spec (maxTTL_of d) 0) as [H2|H2];
      [now apply rejects_max_ttl_negative|].
    destruct (Z.eqb_spec (maxTTL_of d) 0) as [H3|H3]; simpl.
    { apply rejects_parse; [unfold lease_checks_pass; lia|done]. }
    destruct (Z.gtb_spec (ttl_of d) (maxTTL_of d)) as [H4|H4].
    { apply rejects_ttl_over_max; lia. }
    apply rejects_parse; [unfold lease_checks_pass; lia|done]. }
  assert (Hin : (if ttl_of d <? 0 then msg_ttl_negative
                 else if maxTTL_of d <? 0 then msg_max_ttl_negative
                 else if negb (maxTTL_of d =? 0) &&
                         (ttl_of d >? maxTTL_of d)
                      then msg_ttl_over_max
                 else msg_parse)
                ∈ [msg_ttl_negative; msg_max_ttl_negative;
                   msg_ttl_over_max; msg_parse]).
  { destruct (ttl_of d <? 0); [set_solver|].
    destruct (maxTTL_of d <? 0); [set_solver|].
    destruct (negb (maxTTL_of d =? 0) && (ttl_of d >? maxTTL_of d));
      set_solver. }
  split; [|split; [|split; [|split; [|split; [|split; [|split]]]]]].
  - eexists. split; [|exact Hin]. now apply Write_rejected_iff.
  - intros Hl. apply Write_rejected_iff. now apply rejects_parse.
  - intros Ho. apply Write_rejected_iff in Ho.
    inversion Ho as [| | |Hl _|]; subst. exact Hl.
  - intros H1. apply Write_rejected_iff. now apply rejects_ttl_negative.
  - intros H1 H2. apply Write_rejected_iff.
    now apply rejects_max_ttl_negative.
  - intros H1 H2 H3. apply Write_rejected_iff.
    now apply rejects_ttl_over_max.
  - now apply Write_rejected_iff.
  - exact (Write_rejected_store b d w _ Hexact).
Qed.

(** C5.  A write that passes every check, on a storage that works, with
    [ttl] above the default lease of the mount: the write succeeds, the
    entry is stored, and the reply carries a warning in which both the
    requested ttl and the default, in seconds, can be read.  The requested
    ttl in seconds is the [ttl] field of the request whenever that field
    fits a [time.Duration]. *)
Theorem ttl_above_default_warns b d w blob :
  admitted parsePEM d ->
  EncodeJSON (requested_entry ParsePolicies d) = Ok blob ->
  next_fault w = None ->
  ttl_of d > DefaultLeaseTTL (System b) ->
  exists resp warning,
    fst (Write' b d w) = Reply (Some resp) /\
    logical.IsError resp = false /\
    warning ∈ logical.Warnings resp /\
    mentions warning (fmt_d (time.div (ttl_of d) time.Second)) /\
    mentions warning
      (fmt_d (time.div (DefaultLeaseTTL (System b)) time.Second)) /\
    (exact_seconds (Get_ttl d) -> mentions warning (fmt_d (Get_ttl d))) /\
    store (snd (Write' b d w)) !! key_of (Get_name d) = Some blob.
Proof.
  intros Ha He Hf Hgt.
  destruct (Write_stored parsePEM ParsePolicies EncodeJSON b d w blob
              Ha He Hf) as (Ho & Hs & _).
  assert (Hadv : exists ws,
             advisories b d =
             advisory "ttl" (ttl_of d) (DefaultLeaseTTL (System b)) :: ws).
  { unfold advisories.
    assert ((ttl_of d >? DefaultLeaseTTL (System b)) = true) as -> by lia.
    eauto. }
  destruct Hadv as [ws Hadv].
  exists {| logical.Data := ∅; logical.Warnings := advisories b d |}.
  exists (advisory "ttl" (ttl_of d) (DefaultLeaseTTL (System b))).
  split; [|split; [|split; [|split; [|split; [|split]]]]].
  - rewrite Ho. unfold accepted. now rewrite Hadv.
  - apply (accepted_not_error b d). unfold accepted. now rewrite Hadv.
  - simpl. rewrite Hadv. apply list_elem_of_here.
  - apply advisory_mentions_given.
  - apply advisory_mentions_ceiling.
  - intros Hx. rewrite <- (seconds_of_exact_duration (Get_ttl d) Hx).
    apply advisory_mentions_given.
  - rewrite Hs. apply lookup_insert_eq.
Qed.

(** C6.  Names are keyed by their lower-case form, and lower-casing twice
    is lower-casing once.  After a successful write under a name, on a
    codec that reads back what it wrote, a read under any spelling of the
    name that differs only by case returns the entry that was written, and
    a delete under such a spelling removes it. *)
Theorem name_case_insensitive b d w blob n :
  admitted parsePEM d ->
  EncodeJSON (requested_entry ParsePolicies d) = Ok blob ->
  DecodeJSON blob = Ok (requested_entry ParsePolicies d) ->
  next_fault w = None ->
  next_fault (snd (Write' b d w)) = None ->
  ToLower n = ToLower (Get_name d) ->
  ToLower (ToLower n) = ToLower n /\
  succeeds (fst (Write' b d w)) /\
  fst (Read' b (named n) (snd (Write' b d w))) =
    found (requested_entry ParsePolicies d) /\
  store (snd (pathCertDelete b (named n) (snd (Write' b d w))))
    !! key_of (Get_name d) = None.
Proof.
  intros Ha He Hd Hf Hf' Hn.
  destruct (Write_stored parsePEM ParsePolicies EncodeJSON b d w blob
              Ha He Hf) as (Ho & Hs & _).
  assert (Hk : key_of (Get_name (named n)) = key_of (Get_name d)).
  { unfold key_of. simpl. now rewrite Hn. }
  split; [apply ToLower_idem|]. split; [rewrite Ho; apply accepted_succeeds|].
  split.
  - apply (Read_present DecodeJSON b (named n) _ blob); [done| |done].
    rewrite Hk, Hs. apply lookup_insert_eq.
  - destruct (Delete_ok b (named n) _ Hf') as (_ & ->).
    rewrite Hk. apply lookup_delete_eq.
Qed.

(** C7.  For a name under which nothing is stored, on a storage that
    works, a read replies with the empty result and a delete replies with
    success; neither returns an error, and neither changes the stored
    data. *)
Theorem absent_name_is_no_error b d w :
  store w !! key_of (Get_name d) = None ->
  next_fault w = None ->
  fst (Read' b d w) = Reply None /\
  store (snd (Read' b d w)) = store w /\
  fst (pathCertDelete b d w) = Reply None /\
  store (snd (pathCertDelete b d w)) = store w.
Proof.
  intros Hk Hf.
  destruct (Read_absent DecodeJSON b d w Hf Hk) as (-> & ->).
  destruct (Delete_ok b d w Hf) as (-> & ->).
  now rewrite delete_id.
Qed.

(** C8.  After a successful write the storage holds, under the key of the
    name, the encoding of an entry whose name is the lower-cased name and
    whose display name is the lower-cased name when the request's
    [display_name] is empty, and the request's [display_name] as given
    otherwise. *)
Theorem display_name_default b d w :
  succeeds (fst (Write' b d w)) ->
  exists entry blob,
    EncodeJSON entry = Ok blob /\
    store (snd (Write' b d w)) !! key_of (Get_name d) = Some blob /\
    Name entry = ToLower (Get_name d) /\
    (Get_display_name d = "" -> DisplayName entry = ToLower (Get_name d)) /\
    (Get_display_name d <> "" -> DisplayName entry = Get_display_name d).
Proof.
  intros Hs. destruct (Write_succeeds_inv b d w Hs) as (_ & blob & He & _ & Hst).
  exists (requested_entry ParsePolicies d), blob.
  split; [done|]. split; [rewrite Hst; apply lookup_insert_eq|].
  split; [done|]. simpl. split; intros H.
  - now rewrite bool_decide_eq_true_2.
  - now rewrite bool_decide_eq_false_2.
Qed.

(** C9.  Writing the same request twice in a row leaves the stored data
    as writing it once does, provided the first write did not end in a
    storage failure. *)
Theorem write_idempotent b d w :
  ~ storage_failure (fst (Write' b d w)) ->
  store (snd (Write' b d (snd (Write' b d w)))) = store (snd (Write' b d w)).
Proof.
  intros Hnf.
  destruct (Write_runs parsePEM ParsePolicies EncodeJSON b d w)
    as [(m & Hr & _) | [(_ & _ & Hf & _) | (Ha & blob & He & _ & _ & Hs & _)]].
  - now apply (Write_rejected_store b d _ m).
  - destruct (Hnf Hf).
  - destruct (Write_runs parsePEM ParsePolicies EncodeJSON b d
                (snd (Write' b d w)))
      as [(m & Hr & _) | [(_ & _ & _ & Hs') |
          (_ & blob' & He' & _ & _ & Hs' & _)]].
    + destruct (rejects_not_admitted parsePEM d m Hr Ha).
    + exact Hs'.
    + rewrite Hs', Hs. rewrite He in He'. injection He' as <-.
      apply insert_insert_eq.
Qed.

(** C10.  An error response of a write is [ErrorResponse(msg)] for one of
    the five messages, the one of the check that turned the request down,
    and carries no warning, whatever the ceilings of the mount and hence
    whatever warnings the handler had collected by then. *)
Theorem rejection_carries_no_warning b d w r :
  fst (Write' b d w) = Reply (Some r) ->
  logical.IsError r = true ->
  logical.Warnings r = [] /\
  exists msg,
    r = logical.ErrorResponse msg /\
    rejects parsePEM d msg /\
    msg ∈ [msg_ttl_negative; msg_max_ttl_negative; msg_ttl_over_max;
           msg_parse; msg_key_usage].
Proof.
  intros Ho Herr.
  destruct (Write_runs parsePEM ParsePolicies EncodeJSON b d w)
    as [(m & Hr & Ho' & _) | [(_ & _ & Hf & _) | (_ & blob & _ & _ & Ho' & _)]].
  - rewrite Ho in Ho'. unfold InvalidArgument in Ho'.
    injection Ho' as ->. split; [done|]. exists m.
    split; [done|]. split; [done|]. now apply (five_messages d).
  - destruct Hf as [e He]. rewrite Ho in He. discriminate He.
  - rewrite Ho in Ho'. symmetry in Ho'.
    apply (accepted_not_error b d) in Ho'. congruence.
Qed.

End Contract.

(** ** The contract on the test bench

    Each statement of the contract, run on a request of the bench, and two
    requests on which an earlier check answers before the check on
    [ttl > maxTTL], respectively before the parse check. *)

Ltac evaluate := vm_compute; first [reflexivity | intuition discriminate].

(** [client_leaf] passes every check. *)
Lemma Bench_admitted_client_leaf : admitted Bench.parsePEM Bench.client_leaf.
Proof.
  split; [evaluate|].
  exists {| x509.IsCA := false;
            x509.ExtKeyUsage := Some [x509.ExtKeyUsageServerAuth;
                                      x509.ExtKeyUsageClientAuth] |}, [].
  split; evaluate.
Defined.


(** A bundle whose first certificate is a server-only leaf is turned
    down, although its second certificate is a CA. *)
Lemma key_usage_rule_witness :
  Bench.parsePEM (bytes_of_string (Get_certificate Bench.server_leaf)) =
    [ {| x509.IsCA := false;
         x509.ExtKeyUsage := Some [x509.ExtKeyUsageServerAuth] |};
      {| x509.IsCA := true;
         x509.ExtKeyUsage := Some [x509.ExtKeyUsageClientAuth] |} ] /\
  fst (Bench.Write Bench.b Bench.server_leaf Bench.fresh) =
    InvalidArgument msg_key_usage.
Proof.
  split; [vm_compute; reflexivity|].
  refine (proj2 (proj1 (key_usage_rule Bench.parsePEM Bench.ParsePolicies
           Bench.EncodeJSON Bench.b Bench.server_leaf Bench.fresh
           {| x509.IsCA := false;
              x509.ExtKeyUsage := Some [x509.ExtKeyUsageServerAuth] |}
           [ {| x509.IsCA := true;
                x509.ExtKeyUsage := Some [x509.ExtKeyUsageClientAuth] |} ]
           _ _ _)) _).
  - vm_compute. intuition discriminate.
  - vm_compute. reflexivity.
  - discriminate.
  - unfold lacks_client_auth, x509.usages. simpl.
    split; [reflexivity|]. split; [discriminate|].
    split; (apply not_elem_of_cons; split; [discriminate|apply not_elem_of_nil]).
Defined.

(** A ttl of -5 seconds. *)
Lemma negative_lease_rejected_witness :
  ttl_of Bench.negative_ttl < 0 /\
  fst (Bench.Write Bench.b Bench.negative_ttl Bench.fresh) =
    InvalidArgument msg_ttl_negative /\
  store (snd (Bench.Write Bench.b Bench.negative_ttl Bench.fresh)) = ∅.
Proof.
  split; [vm_compute; reflexivity|].
  pose proof (negative_lease_rejected Bench.parsePEM Bench.ParsePolicies
           Bench.EncodeJSON Bench.b Bench.negative_ttl Bench.fresh) as H.
  assert (E : (ttl_of Bench.negative_ttl <? 0) = true) by (vm_compute; reflexivity).
  rewrite E in H. apply H. left. vm_compute. reflexivity.
Defined.

(** ttl = 5s, max_ttl = -1s: [maxTTL != 0] and [ttl > maxTTL], and the
    answer is the one of the check on a negative max_ttl. *)
Lemma ttl_over_max_counterexample :
  maxTTL_of Bench.negative_max_ttl <> 0 /\
  ttl_of Bench.negative_max_ttl > maxTTL_of Bench.negative_max_ttl /\
  fst (Bench.Write Bench.b Bench.negative_max_ttl Bench.fresh) =
    InvalidArgument msg_max_ttl_negative /\
  fst (Bench.Write Bench.b Bench.negative_max_ttl Bench.fresh) <>
    InvalidArgument msg_ttl_over_max.
Proof.
  assert (E : fst (Bench.Write Bench.b Bench.negative_max_ttl Bench.fresh) =
              InvalidArgument msg_max_ttl_negative) by evaluate.
  split; [evaluate|]. split; [evaluate|]. split; [exact E|].
  rewrite E. intros H. apply InvalidArgument_inj in H. discriminate H.
Qed.

(** ttl = 100s, max_ttl = 50s. *)
Lemma ttl_over_max_rejected_witness :
  maxTTL_of Bench.over_max <> 0 /\
  ttl_of Bench.over_max > maxTTL_of Bench.over_max /\
  fst (Bench.Write Bench.b Bench.over_max Bench.fresh) =
    InvalidArgument msg_ttl_over_max /\
  store (snd (Bench.Write Bench.b Bench.over_max Bench.fresh)) = ∅.
Proof.
  split; [evaluate|]. split; [evaluate|].
  pose proof (ttl_over_max_rejected Bench.parsePEM Bench.ParsePolicies
                Bench.EncodeJSON Bench.b Bench.over_max Bench.fresh) as H.
  assert (E1 : (ttl_of Bench.over_max <? 0) = false) by evaluate.
  assert (E2 : (maxTTL_of Bench.over_max <? 0) = false) by evaluate.
  rewrite E1, E2 in H. apply H; evaluate.
Defined.

(** ttl = -1s and an empty certificate: nothing parses, and the answer is
    the one of the check on a negative ttl. *)
Lemma unparsed_certificate_counterexample :
  Bench.parsePEM
    (bytes_of_string (Get_certificate Bench.unparsed_negative_ttl)) = [] /\
  fst (Bench.Write Bench.b Bench.unparsed_negative_ttl Bench.fresh) =
    InvalidArgument msg_ttl_negative /\
  fst (Bench.Write Bench.b Bench.unparsed_negative_ttl Bench.fresh) <>
    InvalidArgument msg_parse.
Proof.
  assert (E : fst (Bench.Write Bench.b Bench.unparsed_negative_ttl
                     Bench.fresh) = InvalidArgument msg_ttl_negative)
    by evaluate.
  split; [evaluate|]. split; [exact E|].
  rewrite E. intros H. apply InvalidArgument_inj in H. discriminate H.
Qed.

(** A certificate text the parser finds no certificate in, with sound
    lease durations. *)
Lemma unparsed_certificate_rejected_witness :
  Bench.parsePEM (bytes_of_string (Get_certificate Bench.unparsed)) = [] /\
  fst (Bench.Write Bench.b Bench.unparsed Bench.fresh) =
    InvalidArgument msg_parse /\
  store (snd (Bench.Write Bench.b Bench.unparsed Bench.fresh)) = ∅ /\
  fst (Bench.Write Bench.b Bench.unparsed_negative_ttl Bench.fresh) =
    InvalidArgument msg_ttl_negative.
Proof.
  split; [evaluate|].
  destruct (unparsed_certificate_rejected Bench.parsePEM Bench.ParsePolicies
              Bench.EncodeJSON Bench.b Bench.unparsed Bench.fresh)
    as (_ & Hmsg & _ & _ & _ & _ & _ & Hstore); [evaluate|].
  destruct (unparsed_certificate_rejected Bench.parsePEM Bench.ParsePolicies
              Bench.EncodeJSON Bench.b Bench.unparsed_negative_ttl
              Bench.fresh)
    as (_ & _ & _ & Hneg & _); [evaluate|].
  split; [apply Hmsg; evaluate|]. split; [exact Hstore|].
  apply Hneg. evaluate.
Defined.

(** ttl = 40s on a mount whose default is 30s. *)
Lemma ttl_above_default_warns_witness :
  ttl_of Bench.client_leaf > DefaultLeaseTTL (System Bench.b) /\
  exists resp warning,
    fst (Bench.Write Bench.b Bench.client_leaf Bench.fresh) =
      Reply (Some resp) /\
    logical.IsError resp = false /\
    warning ∈ logical.Warnings resp /\
    mentions warning "40" /\ mentions warning "30".
Proof.
  split; [evaluate|].
  edestruct (ttl_above_default_warns Bench.parsePEM Bench.ParsePolicies
               Bench.EncodeJSON Bench.b Bench.client_leaf Bench.fresh)
    as (resp & warning & Ho & Hne & Hin & Hm1 & Hm2 & _).
  - exact Bench_admitted_client_leaf.
  - vm_compute. reflexivity.
  - reflexivity.
  - evaluate.
  - exists resp, warning. repeat split; [exact Ho|exact Hne|exact Hin| |].
    + exact Hm1.
    + exact Hm2.
Defined.

(** Written as [Example], read as [example] and as [EXAMPLE]. *)
Lemma name_case_insensitive_witness :
  Get_name Bench.client_leaf = "Example" /\
  fst (Bench.Read Bench.b (named "example")
         (snd (Bench.Write Bench.b Bench.client_leaf Bench.fresh))) =
    found (requested_entry Bench.ParsePolicies Bench.client_leaf) /\
  fst (Bench.Read Bench.b (named "EXAMPLE")
         (snd (Bench.Write Bench.b Bench.client_leaf Bench.fresh))) =
    found (requested_entry Bench.ParsePolicies Bench.client_leaf).
Proof.
  split; [reflexivity|]. split.
  - eapply (name_case_insensitive Bench.parsePEM Bench.ParsePolicies
              Bench.EncodeJSON Bench.DecodeJSON Bench.b Bench.client_leaf
              Bench.fresh _ "example");
      [exact Bench_admitted_client_leaf | vm_compute; reflexivity
      | evaluate | evaluate | evaluate | evaluate].
  - eapply (name_case_insensitive Bench.parsePEM Bench.ParsePolicies
              Bench.EncodeJSON Bench.DecodeJSON Bench.b Bench.client_leaf
              Bench.fresh _ "EXAMPLE");
      [exact Bench_admitted_client_leaf | vm_compute; reflexivity
      | evaluate | evaluate | evaluate | evaluate].
Defined.

(** Reading and deleting a name on an empty storage. *)
Lemma absent_name_is_no_error_witness :
  store Bench.fresh !! key_of "ghost" = None /\
  fst (Bench.Read Bench.b (named "ghost") Bench.fresh) = Reply None /\
  fst (Bench.Delete Bench.b (named "ghost") Bench.fresh) = Reply None.
Proof.
  split; [evaluate|].
  destruct (absent_name_is_no_error Bench.DecodeJSON Bench.b (named "ghost")
              Bench.fresh) as (Hr & _ & Hd & _); [evaluate | evaluate |].
  split; [exact Hr|exact Hd].
Defined.

(** [client_leaf] has no display name: the stored one is [example]. *)
Lemma display_name_default_witness :
  Get_display_name Bench.client_leaf = "" /\
  exists entry blob,
    Bench.EncodeJSON entry = Ok blob /\
    store (snd (Bench.Write Bench.b Bench.client_leaf Bench.fresh))
      !! "cert/example" = Some blob /\
    DisplayName entry = "example".
Proof.
  split; [reflexivity|].
  destruct (display_name_default Bench.parsePEM Bench.ParsePolicies
              Bench.EncodeJSON Bench.b Bench.client_leaf Bench.fresh)
    as (entry & blob & He & Hs & _ & Hd & _); [evaluate|].
  exists entry, blob. split; [exact He|]. split; [exact Hs|].
  apply Hd. reflexivity.
Defined.

(** [client_leaf] written twice. *)
Lemma write_idempotent_witness :
  store (snd (Bench.Write Bench.b Bench.client_leaf
                (snd (Bench.Write Bench.b Bench.client_leaf Bench.fresh)))) =
  store (snd (Bench.Write Bench.b Bench.client_leaf Bench.fresh)).
Proof.
  apply (write_idempotent Bench.parsePEM Bench.ParsePolicies Bench.EncodeJSON
           Bench.b Bench.client_leaf Bench.fresh).
  intros [e He]. vm_compute in He. discriminate He.
Defined.

(** ttl = 100s is above the default of 30s, so a warning is collected
    before the check on [ttl > maxTTL] answers; the answer has none. *)
Lemma rejection_carries_no_warning_witness :
  ttl_of Bench.over_max > DefaultLeaseTTL (System Bench.b) /\
  fst (Bench.Write Bench.b Bench.over_max Bench.fresh) =
    Reply (Some (logical.ErrorResponse msg_ttl_over_max)) /\
  logical.Warnings (logical.ErrorResponse msg_ttl_over_max) = [].
Proof.
  split; [evaluate|]. split; [evaluate|].
  apply (rejection_carries_no_warning Bench.parsePEM Bench.ParsePolicies
           Bench.EncodeJSON Bench.b Bench.over_max Bench.fresh
           (logical.ErrorResponse msg_ttl_over_max)); evaluate.
Defined.

(** ** More on writing *)

Section Writing.

Variable parsePEM : list byte -> list x509.Certificate.
Variable ParsePolicies : list string -> list string.
Variable EncodeJSON : CertEntry -> result (list byte).

Abbreviation WriteH := (pathCertWrite parsePEM ParsePolicies EncodeJSON).

(** X1.  Whatever the message, a write that answers [InvalidArgument] has
    made no storage call: the stored data and the pending storage answers
    are as before. *)
Theorem rejection_precedes_storage b d w msg :
  fst (WriteH b d w) = InvalidArgument msg ->
  store (snd (WriteH b d w)) = store w /\
  faults (snd (WriteH b d w)) = faults w.
Proof.
  intros H.
  destruct (Write_runs parsePEM ParsePolicies EncodeJSON b d w)
    as [(m & _ & _ & Hs & Hf) | [(_ & _ & Hfail & _) |
        (_ & blob & _ & _ & Ho & _)]].
  - now split.
  - destruct Hfail as [e He]. rewrite H in He. discriminate He.
  - exfalso. apply (InvalidArgument_fails msg). rewrite <- H, Ho.
    apply accepted_succeeds.
Qed.

(** X2.  A write changes at most the entry under the key of its name:
    every other key holds after the write what it held before, whether
    the write went through or not. *)
Theorem write_touches_one_key b d w k :
  k <> key_of (Get_name d) ->
  store (snd (WriteH b d w)) !! k = store w !! k.
Proof.
  intros Hk.
  destruct (Write_runs parsePEM ParsePolicies EncodeJSON b d w)
    as [(m & _ & _ & Hs & _) | [(_ & _ & _ & Hs) |
        (_ & blob & _ & _ & _ & Hs & _)]]; rewrite Hs; [done|done|].
  now apply lookup_insert_ne.
Qed.

(** X3.  A write ends in a Go error exactly when the request passed
    every check and either the codec failed or the storage refused the put;
    the error returned is the one the codec or the storage reported, and
    the stored data is unchanged. *)
Theorem write_error_is_reported_error b d w e :
  (fst (WriteH b d w) = Failure e <->
   admitted parsePEM d /\
   (EncodeJSON (requested_entry ParsePolicies d) = Err e \/
    (exists blob, EncodeJSON (requested_entry ParsePolicies d) = Ok blob) /\
    next_fault w = Some e)) /\
  (fst (WriteH b d w) = Failure e -> store (snd (WriteH b d w)) = store w).
Proof.
  assert (Hacc : forall o, o = accepted b d -> o <> Failure e).
  { intros o -> H. pose proof (accepted_succeeds b d) as Hs.
    rewrite H in Hs. exact Hs. }
  split; [split|].
  - intros H.
    destruct (Write_runs parsePEM ParsePolicies EncodeJSON b d w)
      as [(m & _ & Ho & _) | [(Ha & _ & _ & Hs) |
          (_ & blob & _ & _ & Ho & _)]].
    + rewrite H in Ho. discriminate Ho.
    + split; [done|].
      destruct (EncodeJSON (requested_entry ParsePolicies d))
        as [blob|e'] eqn:He.
      * destruct (next_fault w) as [e'|] eqn:Hf.
        -- destruct (Write_put_error parsePEM ParsePolicies EncodeJSON
                       b d w blob e' Ha He Hf) as (Ho & _).
           rewrite H in Ho. injection Ho as ->. right. eauto.
        -- destruct (Write_stored parsePEM ParsePolicies EncodeJSON
                       b d w blob Ha He Hf) as (Ho & _).
           destruct (Hacc _ Ho H).
      * destruct (Write_encode_error parsePEM ParsePolicies EncodeJSON
                    b d w e' Ha He) as (Ho & _).
        rewrite H in Ho. injection Ho as ->. now left.
    + destruct (Hacc _ Ho H).
  - intros (Ha & [He | ([blob He] & Hf)]).
    + now destruct (Write_encode_error parsePEM ParsePolicies EncodeJSON
                      b d w e Ha He) as (Ho & _).
    + now destruct (Write_put_error parsePEM ParsePolicies EncodeJSON
                      b d w blob e Ha He Hf) as (Ho & _).
  - intros H.
    destruct (Write_runs parsePEM ParsePolicies EncodeJSON b d w)
      as [(m & _ & Ho & _) | [(_ & _ & _ & Hs) |
          (_ & blob & _ & _ & Ho & _)]]; [|done|].
    + rewrite H in Ho. discriminate Ho.
    + destruct (Hacc _ Ho H).
Qed.

(** The outcome of a write, but for the warnings, is settled without the
    ceilings of the mount. *)
Lemma Write_outcome_cases d w :
  (exists msg, rejects parsePEM d msg /\
     forall b, fst (WriteH b d w) = InvalidArgument msg) \/
  (exists e, forall b, fst (WriteH b d w) = Failure e) \/
  (forall b, fst (WriteH b d w) = accepted b d).
Proof.
  destruct (Write_runs parsePEM ParsePolicies EncodeJSON
              {| System := {| DefaultLeaseTTL := 0; MaxLeaseTTL := 0 |} |}
              d w)
    as [(m & Hr & _) | [(Ha & _) | (Ha & _)]].
  - left. exists m. split; [done|]. intros b.
    now apply (Write_rejected_iff parsePEM ParsePolicies EncodeJSON).
  - right.
    destruct (EncodeJSON (requested_entry ParsePolicies d))
      as [blob|e] eqn:He; [destruct (next_fault w) as [e|] eqn:Hf|].
    + left. exists e. intros b.
      now destruct (Write_put_error parsePEM ParsePolicies EncodeJSON
                      b d w blob e Ha He Hf).
    + right. intros b.
      now destruct (Write_stored parsePEM ParsePolicies EncodeJSON
                      b d w blob Ha He Hf).
    + left. exists e. intros b.
      now destruct (Write_encode_error parsePEM ParsePolicies EncodeJSON
                      b d w e Ha He).
  - right.
    destruct (EncodeJSON (requested_entry ParsePolicies d))
      as [blob|e] eqn:He; [destruct (next_fault w) as [e|] eqn:Hf|].
    + left. exists e. intros b.
      now destruct (Write_put_error parsePEM ParsePolicies EncodeJSON
                      b d w blob e Ha He Hf).
    + right. intros b.
      now destruct (Write_stored parsePEM ParsePolicies EncodeJSON
                      b d w blob Ha He Hf).
    + left. exists e. intros b.
      now destruct (Write_encode_error parsePEM ParsePolicies EncodeJSON
                      b d w e Ha He).
Qed.

Lemma Write_world_without_ceilings b b' d w :
  snd (WriteH b d w) = snd (WriteH b' d w).
Proof.
  unfold pathCertWrite. cbv zeta. fold (ttl_of d) (maxTTL_of d).
  destruct (ttl_of d <? 0); [reflexivity|].
  destruct (maxTTL_of d <? 0); [reflexivity|].
  destruct (negb (maxTTL_of d =? 0) && (ttl_of d >? maxTTL_of d));
    [reflexivity|].
  destruct (parsePEM (bytes_of_string (Get_certificate d))) as [|c rest];
    [reflexivity|].
  cbv beta iota.
  destruct (negb (x509.IsCA c) &&
            match x509.ExtKeyUsage c with
            | Some l => negb (scan_usages l)
            | None => false
            end); [reflexivity|].
  unfold StorageEntryJSON.
  destruct (EncodeJSON _) as [blob|e]; [|reflexivity].
  assert (Hf : forall l, next_fault
            {| store := store w; faults := faults w; logged := l |}
            = next_fault w) by reflexivity.
  unfold run, bind, when, Info, call, Storage_Put, pure, return_.
  cbv beta iota. rewrite !Hf.
  destruct (next_fault w); [reflexivity|]. cbv beta iota.
  do 2 match goal with
       | |- context [bool_decide ?P] => destruct (bool_decide P)
       end; reflexivity.
Qed.

(** X4.  The ceilings of the mount decide the warnings and nothing else:
    under any two mounts the same request leaves the same world behind
    (stored data, pending storage answers, log lines), succeeds under both
    or under neither, and when it does not succeed the answer is the
    same. *)
Theorem ceilings_only_change_warnings b b' d w :
  snd (WriteH b d w) = snd (WriteH b' d w) /\
  (succeeds (fst (WriteH b d w)) <-> succeeds (fst (WriteH b' d w))) /\
  (~ succeeds (fst (WriteH b d w)) ->
   fst (WriteH b' d w) = fst (WriteH b d w)).
Proof.
  split; [apply Write_world_without_ceilings|].
  destruct (Write_outcome_cases d w) as [(m & _ & H) | [(e & H) | H]].
  - rewrite (H b), (H b'). split; [|done].
    split; intros Hs; destruct (InvalidArgument_fails m Hs).
  - rewrite (H b), (H b'). now split.
  - rewrite (H b), (H b'). split.
    + split; intros _; apply accepted_succeeds.
    + intros Hn. destruct (Hn (accepted_succeeds b d)).
Qed.

(** X5.  The reply of a write that succeeds: the nil response exactly when
    neither [ttl] exceeds the default lease nor [maxTTL] the maximum lease
    of the mount; otherwise a response without data whose warnings are the
    one about ttl, if due, followed by the one about max_ttl, if due. *)
Theorem success_reply_shape b d w :
  succeeds (fst (WriteH b d w)) ->
  (fst (WriteH b d w) = Reply None <->
   ttl_of d <= DefaultLeaseTTL (System b) /\
   maxTTL_of d <= MaxLeaseTTL (System b)) /\
  (forall r, fst (WriteH b d w) = Reply (Some r) ->
     logical.Data r = ∅ /\
     logical.Warnings r =
       (if ttl_of d >? DefaultLeaseTTL (System b)
        then [advisory "ttl" (ttl_of d) (DefaultLeaseTTL (System b))]
        else []) ++
       (if maxTTL_of d >? MaxLeaseTTL (System b)
        then [advisory "max_ttl" (maxTTL_of d) (MaxLeaseTTL (System b))]
        else [])).
Proof.
  intros Hs.
  destruct (Write_succeeds_inv parsePEM ParsePolicies EncodeJSON b d w Hs)
    as (_ & blob & _ & -> & _).
  unfold accepted, advisories.
  destruct (Z.gtb_spec (ttl_of d) (DefaultLeaseTTL (System b)));
    destruct (Z.gtb_spec (maxTTL_of d) (MaxLeaseTTL (System b)));
    simpl; (split; [split; [try discriminate; try lia; done | try done; lia]|]);
    intros r Hr; try discriminate Hr; injection Hr as <-; now split.
Qed.

(** X6.  With [maxTTL] above the maximum lease of the mount, a write that
    passes every check on a working storage still succeeds and stores the
    entry; the last warning of its reply is the line about max_ttl, with
    the requested and the system value in seconds. *)
Theorem max_ttl_above_ceiling_warns b d w blob :
  admitted parsePEM d ->
  EncodeJSON (requested_entry ParsePolicies d) = Ok blob ->
  next_fault w = None ->
  maxTTL_of d > MaxLeaseTTL (System b) ->
  exists resp,
    fst (WriteH b d w) = Reply (Some resp) /\
    logical.IsError resp = false /\
    last (logical.Warnings resp) =
      Some ("Given max_ttl of " +:+
            fmt_d (time.div (maxTTL_of d) time.Second) +:+
            " seconds is greater than current mount/system default of " +:+
            fmt_d (time.div (MaxLeaseTTL (System b)) time.Second) +:+
            " seconds") /\
    store (snd (WriteH b d w)) !! key_of (Get_name d) = Some blob.
Proof.
  intros Ha He Hf Hgt.
  destruct (Write_stored parsePEM ParsePolicies EncodeJSON b d w blob
              Ha He Hf) as (Ho & Hs & _).
  assert (E : (maxTTL_of d >? MaxLeaseTTL (System b)) = true) by lia.
  rewrite Ho, Hs. unfold accepted, advisories. rewrite E.
  destruct (ttl_of d >? DefaultLeaseTTL (System b)); simpl;
    eexists; (split; [reflexivity|]);
    (split; [unfold logical.IsError; simpl;
             now rewrite lookup_empty, andb_false_r|]);
    (split; [reflexivity|apply lookup_insert_eq]).
Qed.

(** X7.  The entry a successful write has stored keeps the lease
    invariants: its TTL and MaxTTL are not negative, fit 64 bits, and the
    TTL does not exceed a MaxTTL other than zero. *)
Theorem stored_entry_lease_invariants b d w :
  succeeds (fst (WriteH b d w)) ->
  exists entry blob,
    EncodeJSON entry = Ok blob /\
    store (snd (WriteH b d w)) !! key_of (Get_name d) = Some blob /\
    0 <= TTL entry <= int64_max /\
    0 <= MaxTTL entry <= int64_max /\
    (MaxTTL entry = 0 \/ TTL entry <= MaxTTL entry).
Proof.
  intros Hs.
  destruct (Write_succeeds_inv parsePEM ParsePolicies EncodeJSON b d w Hs)
    as (((H1 & H2 & H3) & _) & blob & He & _ & Hst).
  exists (requested_entry ParsePolicies d), blob.
  split; [done|]. split; [rewrite Hst; apply lookup_insert_eq|]. simpl.
  pose proof (wrap64_bounds (time.of_int (Get_ttl d) * time.Second)) as B1.
  pose proof (wrap64_bounds (time.of_int (Get_max_ttl d) * time.Second))
    as B2.
  unfold in_int64 in B1, B2. unfold ttl_of, maxTTL_of, time.mul in *.
  lia.
Qed.

(** X8.  The entry a successful write has stored holds the certificate
    text and the parsed policies of the request as they are, and that
    certificate text parses to at least one certificate, the first of which
    is a CA, or has no extended key usage, or lists client authentication
    or any. *)
Theorem stored_certificate_is_checked b d w :
  succeeds (fst (WriteH b d w)) ->
  exists entry blob c rest,
    EncodeJSON entry = Ok blob /\
    store (snd (WriteH b d w)) !! key_of (Get_name d) = Some blob /\
    Certificate entry = Get_certificate d /\
    Policies entry = ParsePolicies (Get_policies d) /\
    parsePEM (bytes_of_string (Certificate entry)) = c :: rest /\
    usable_for_client_auth c.
Proof.
  intros Hs.
  destruct (Write_succeeds_inv parsePEM ParsePolicies EncodeJSON b d w Hs)
    as ((_ & c & rest & Hp & Hg) & blob & He & _ & Hst).
  exists (requested_entry ParsePolicies d), blob, c, rest.
  split; [done|]. split; [rewrite Hst; apply lookup_insert_eq|].
  do 3 (split; [done|]).
  unfold usage_guard in Hg. unfold usable_for_client_auth, x509.usages.
  destruct (x509.IsCA c); [now left|]. right.
  destruct (x509.ExtKeyUsage c) as [l|]; [|now left]. right.
  simpl in Hg. apply negb_false_iff in Hg. now apply scan_usages_true.
Qed.

(** X9.  A write replaces in full: after two writes under names that
    differ by case only, both passing every check on a working storage, the
    stored data is what the second write alone would have left. *)
Theorem write_replaces b d1 d2 w blob1 blob2 :
  admitted parsePEM d1 -> admitted parsePEM d2 ->
  EncodeJSON (requested_entry ParsePolicies d1) = Ok blob1 ->
  EncodeJSON (requested_entry ParsePolicies d2) = Ok blob2 ->
  ToLower (Get_name d1) = ToLower (Get_name d2) ->
  next_fault w = None ->
  next_fault (snd (WriteH b d1 w)) = None ->
  store (snd (WriteH b d2 (snd (WriteH b d1 w)))) =
    store (snd (WriteH b d2 w)) /\
  store (snd (WriteH b d2 (snd (WriteH b d1 w)))) !! key_of (Get_name d1) =
    Some blob2.
Proof.
  intros Ha1 Ha2 He1 He2 Hn Hf Hf'.
  destruct (Write_stored parsePEM ParsePolicies EncodeJSON b d1 w blob1
              Ha1 He1 Hf) as (_ & Hs1 & _).
  destruct (Write_stored parsePEM ParsePolicies EncodeJSON b d2 _ blob2
              Ha2 He2 Hf') as (_ & Hs2 & _).
  destruct (Write_stored parsePEM ParsePolicies EncodeJSON b d2 w blob2
              Ha2 He2 Hf) as (_ & Hs & _).
  assert (Hk : key_of (Get_name d1) = key_of (Get_name d2)).
  { unfold key_of. now rewrite Hn. }
  rewrite Hs2, Hs1, Hs, Hk. split.
  - apply insert_insert_eq.
  - apply lookup_insert_eq.
Qed.

(** X10.  A request with ttl 0 and max_ttl 0 passes the lease checks
    whatever the mount: it can only be turned down for its certificate.
    When it succeeds on a mount whose ceilings are not negative, the reply
    is the nil response. *)
Theorem zero_lease_passes b d w :
  Get_ttl d = 0 -> Get_max_ttl d = 0 ->
  (forall msg, fst (WriteH b d w) = InvalidArgument msg ->
     msg = msg_parse \/ msg = msg_key_usage) /\
  (0 <= DefaultLeaseTTL (System b) -> 0 <= MaxLeaseTTL (System b) ->
   succeeds (fst (WriteH b d w)) -> fst (WriteH b d w) = Reply None).
Proof.
  intros Ht Hm.
  assert (E1 : ttl_of d = 0) by (unfold ttl_of; now rewrite Ht).
  assert (E2 : maxTTL_of d = 0) by (unfold maxTTL_of; now rewrite Hm).
  split.
  - intros msg H.
    apply (Write_rejected_iff parsePEM ParsePolicies EncodeJSON) in H.
    destruct H; try lia; [now left|now right].
  - intros H1 H2 Hs.
    destruct (Write_succeeds_inv parsePEM ParsePolicies EncodeJSON b d w Hs)
      as (_ & blob & _ & -> & _).
    unfold accepted, advisories. rewrite E1, E2.
    assert ((0 >? DefaultLeaseTTL (System b)) = false) as -> by lia.
    assert ((0 >? MaxLeaseTTL (System b)) = false) as -> by lia.
    reflexivity.
Qed.

End Writing.

(** ** More on names and durations *)

Lemma lower_byte_not_upper c : is_upper (lower_byte c) = false.
Proof. destruct c as [[] [] [] [] [] [] [] []]; reflexivity. Qed.

Lemma lower_byte_fixes c : is_upper c = false -> lower_byte c = c.
Proof. unfold lower_byte, is_upper. now intros ->. Qed.

Lemma lower_byte_slash c :
  Ascii.eqb (lower_byte c) "/" = Ascii.eqb c "/".
Proof. destruct c as [[] [] [] [] [] [] [] []]; reflexivity. Qed.

Lemma slash_free_ToLower s : slash_free (ToLower s) = slash_free s.
Proof.
  induction s as [|c s IH]; simpl; [done|].
  now rewrite lower_byte_slash, IH.
Qed.

Lemma ToLower_normal_form s :
  String.length (ToLower s) = String.length s /\
  has_upper (ToLower s) = false /\
  (has_upper s = false -> ToLower s = s).
Proof.
  induction s as [|c s (IH1 & IH2 & IH3)]; simpl; [done|].
  split; [now rewrite IH1|]. split.
  - now rewrite lower_byte_not_upper, IH2.
  - intros [Hc Hs]%orb_false_iff.
    now rewrite (lower_byte_fixes c Hc), (IH3 Hs).
Qed.

Lemma key_of_inj n n' : key_of n = key_of n' <-> ToLower n = ToLower n'.
Proof.
  unfold key_of. split; [|now intros ->].
  intros H. now apply (String.app_inj "cert/") in H.
Qed.

(** X11.  The seconds of a request survive the conversion to a
    [time.Duration] and the division back exactly in the range of plus or
    minus 9223372036 seconds; within it the duration is the seconds times
    [time.Second]. *)
Theorem seconds_round_trip n :
  (exact_seconds n <-> -9223372036 <= n <= 9223372036) /\
  (time.div (time.mul (time.of_int n) time.Second) time.Second = n <->
   exact_seconds n) /\
  (exact_seconds n ->
   time.mul (time.of_int n) time.Second = n * time.Second).
Proof.
  assert (Hrange : exact_seconds n <-> -9223372036 <= n <= 9223372036).
  { unfold exact_seconds, int64_min, int64_max, time.Second. lia. }
  split; [exact Hrange|]. split; [split|].
  - intros H. apply Hrange. rewrite <- H.
    pose proof (wrap64_bounds (time.of_int n * time.Second)) as B.
    unfold in_int64, int64_min, int64_max in B.
    unfold time.div, time.mul, time.Second in *.
    set (x := wrap64 (time.of_int n * 1000000000)) in *.
    assert (Hq : -9223372036 <= x ÷ 1000000000 <= 9223372036).
    { pose proof (Z.quot_le_mono x (2 ^ 63 - 1) 1000000000
                    ltac:(lia) ltac:(lia)) as U.
      pose proof (Z.quot_le_mono (- 2 ^ 63) x 1000000000
                    ltac:(lia) ltac:(lia)) as L.
      change ((2 ^ 63 - 1) ÷ 1000000000) with 9223372036 in U.
      change (- 2 ^ 63 ÷ 1000000000) with (-9223372036) in L.
      lia. }
    rewrite wrap64_exact; [exact Hq|].
    unfold in_int64, int64_min, int64_max. lia.
  - now apply seconds_of_exact_duration.
  - now apply duration_of_exact_seconds.
Qed.

(** ** More on reading, deleting and listing *)

Lemma strip_prefix_Some prefix key rest :
  strip_prefix prefix key = Some rest <-> key = prefix +:+ rest.
Proof.
  revert key. induction prefix as [|a p IH]; intros key; simpl.
  - split; [now intros [= ->]|now intros ->].
  - destruct key as [|c key].
    + split; [discriminate|]. intros H. discriminate H.
    + destruct (Ascii.eqb_spec a c) as [->|Hne].
      * rewrite IH. split; [now intros ->|]. intros H.
        change (String c key = String c (p +:+ rest)) in H.
        now injection H.
      * split; [discriminate|]. intros H.
        change (String c key = String a (p +:+ rest)) in H.
        injection H as -> _. now destruct Hne.
Qed.

Lemma up_to_slash_slash_free s : slash_free s = true -> up_to_slash s = s.
Proof.
  induction s as [|c s IH]; simpl; [done|].
  destruct (Ascii.eqb c "/"); simpl; [discriminate|].
  intros H. now rewrite IH.
Qed.

Lemma slash_free_up_to_slash s :
  slash_free (up_to_slash s) = true -> slash_free s = true.
Proof.
  induction s as [|c s IH]; simpl; [done|].
  destruct (Ascii.eqb c "/") eqn:E; simpl.
  - rewrite E. discriminate.
  - rewrite E. simpl. exact IH.
Qed.

Lemma listed_ListResponse keys :
  listed (Reply (Some (ListResponse keys))) = keys.
Proof.
  unfold listed, ListResponse. simpl.
  destruct keys as [|k keys]; simpl; [now rewrite lookup_empty|].
  now rewrite lookup_singleton_eq.
Qed.

Lemma List_ok b d w :
  next_fault w = None ->
  fst (pathCertList b d w) =
    Reply (Some (ListResponse
      (remove_dups
         (omap (fun key => up_to_slash <$> strip_prefix "cert/" key)
               (map_to_list (store w)).*1)))) /\
  store (snd (pathCertList b d w)) = store w.
Proof.
  intros Hf. unfold pathCertList, run, bind, call, Storage_List.
  rewrite Hf. now split.
Qed.

Lemma List_fault b d w e :
  next_fault w = Some e ->
  fst (pathCertList b d w) = Failure e /\
  store (snd (pathCertList b d w)) = store w.
Proof.
  intros Hf. unfold pathCertList, run, bind, call, Storage_List.
  rewrite Hf. now split.
Qed.

Lemma listed_iff b d w n :
  next_fault w = None ->
  n ∈ listed (fst (pathCertList b d w)) <->
  exists rest, is_Some (store w !! ("cert/" +:+ rest)) /\ up_to_slash rest = n.
Proof.
  intros Hf. destruct (List_ok b d w Hf) as (-> & _).
  rewrite listed_ListResponse, elem_of_remove_dups, list_elem_of_omap.
  split.
  - intros (key & Hin & Hk).
    apply list_elem_of_fmap in Hin as ([key' blob] & -> & Hin).
    apply elem_of_map_to_list in Hin. cbv beta in Hk.
    change (up_to_slash <$> strip_prefix "cert/" (key', blob).1 = Some n)
      with (up_to_slash <$> strip_prefix "cert/" key' = Some n) in Hk.
    destruct (strip_prefix "cert/" key') as [rest|] eqn:Hs;
      [|discriminate Hk].
    apply strip_prefix_Some in Hs as ->.
    change (Some (up_to_slash rest) = Some n) in Hk. injection Hk as <-.
    exists rest. split; [eauto|done].
  - intros (rest & [blob Hb] & <-). exists ("cert/" +:+ rest). split.
    + apply list_elem_of_fmap. exists ("cert/" +:+ rest, blob).
      split; [done|]. now apply elem_of_map_to_list.
    + assert (strip_prefix "cert/" ("cert/" +:+ rest) = Some rest) as ->
        by now apply strip_prefix_Some.
      reflexivity.
Qed.

Lemma listed_slash_free b d w n :
  next_fault w = None ->
  slash_free n = true ->
  n ∈ listed (fst (pathCertList b d w)) <->
  is_Some (store w !! ("cert/" +:+ n)).
Proof.
  intros Hf Hn. rewrite (listed_iff b d w n Hf). split.
  - intros (rest & Hs & Hr).
    assert (Hfree : slash_free rest = true).
    { apply slash_free_up_to_slash. now rewrite Hr. }
    rewrite (up_to_slash_slash_free rest Hfree) in Hr. now subst.
  - intros Hs. exists n. split; [done|]. now apply up_to_slash_slash_free.
Qed.

Section Reading.

Variable parsePEM : list byte -> list x509.Certificate.
Variable ParsePolicies : list string -> list string.
Variable EncodeJSON : CertEntry -> result (list byte).
Variable DecodeJSON : list byte -> result CertEntry.

Abbreviation WriteR := (pathCertWrite parsePEM ParsePolicies EncodeJSON).
Abbreviation ReadR := (pathCertRead DecodeJSON).

(** X12.  A read never changes the stored data, and makes exactly one
    storage call, whatever it finds. *)
Theorem read_is_read_only b d w :
  store (snd (ReadR b d w)) = store w /\
  faults (snd (ReadR b d w)) = tail (faults w).
Proof.
  unfold pathCertRead, run, bind, call, Cert, Storage_Get.
  destruct (next_fault w); [now split|].
  destruct (store w !! _); [|now split]. simpl.
  destruct (DecodeJSON _); now split.
Qed.

(** X13.  A read returns the error of the storage when the get fails, and
    the error of the decoder when the stored bytes do not decode; in
    neither case is there a response. *)
Theorem read_reports_errors b d w :
  (forall e, next_fault w = Some e -> fst (ReadR b d w) = Failure e) /\
  (forall blob e,
     next_fault w = None ->
     store w !! key_of (Get_name d) = Some blob ->
     DecodeJSON blob = Err e ->
     fst (ReadR b d w) = Failure e).
Proof.
  split.
  - intros e Hf. now destruct (Read_fault DecodeJSON b d w e Hf).
  - intros blob e Hf Hk He. unfold key_of in Hk.
    unfold pathCertRead, run, bind, call, Cert, Storage_Get.
    rewrite ToLower_idem, Hf, Hk. simpl. now rewrite He.
Qed.

(** X14.  [Cert] lower-cases the name itself, so every spelling of a name
    that differs by case only looks up the same entry; it never changes
    the stored data; and with a storage that answers it returns no entry
    and no error exactly when nothing is stored under the key. *)
Theorem Cert_lookup b n n' w :
  (ToLower n = ToLower n' -> Cert DecodeJSON b n w = Cert DecodeJSON b n' w) /\
  Cert DecodeJSON b (ToLower n) w = Cert DecodeJSON b n w /\
  store (snd (Cert DecodeJSON b n w)) = store w /\
  (next_fault w = None ->
   (fst (Cert DecodeJSON b n w) = Ok None <->
    store w !! ("cert/" +:+ ToLower n) = None)).
Proof.
  unfold Cert, Storage_Get. split; [now intros ->|].
  split; [now rewrite ToLower_idem|]. split.
  - destruct (next_fault w); [done|].
    destruct (store w !! _); [|done]. simpl. now destruct (DecodeJSON _).
  - intros ->. destruct (store w !! _) as [blob|]; [|done]. simpl.
    destruct (DecodeJSON blob); split; discriminate.
Qed.

(** X15.  After a delete that the storage carried out, a read under any
    spelling of the name that differs by case only finds nothing. *)
Theorem deleted_name_reads_empty b n n' w :
  next_fault w = None ->
  next_fault (snd (pathCertDelete b (named n) w)) = None ->
  ToLower n' = ToLower n ->
  fst (pathCertDelete b (named n) w) = Reply None /\
  fst (ReadR b (named n') (snd (pathCertDelete b (named n) w))) = Reply None.
Proof.
  intros Hf Hf' Hn. destruct (Delete_ok b (named n) w Hf) as (Ho & Hs).
  split; [done|].
  apply (Read_absent DecodeJSON b (named n')); [done|].
  rewrite Hs. unfold key_of. simpl. rewrite Hn. apply lookup_delete_eq.
Qed.

(** X16.  A delete changes at most the entry under the key of its name,
    and when the storage refuses it the error is returned and nothing
    changes. *)
Theorem delete_touches_one_key b d w :
  (forall k, k <> key_of (Get_name d) ->
     store (snd (pathCertDelete b d w)) !! k = store w !! k) /\
  (forall e, next_fault w = Some e ->
     fst (pathCertDelete b d w) = Failure e /\
     store (snd (pathCertDelete b d w)) = store w).
Proof.
  split.
  - intros k Hk. destruct (next_fault w) as [e|] eqn:Hf.
    + now destruct (Delete_fault b d w e Hf) as (_ & ->).
    + destruct (Delete_ok b d w Hf) as (_ & ->).
      now apply lookup_delete_ne.
  - intros e Hf. now apply Delete_fault.
Qed.

(** X17.  What was written is what is read: after a successful write whose
    seconds fit a [time.Duration], on a codec that reads back what it
    wrote, a read under the same name returns the certificate text, the
    parsed policies, the display name (the lower-cased name when none was
    given) and the two durations in the seconds of the request, and no
    warning. *)
Theorem read_returns_the_request b d w blob :
  admitted parsePEM d ->
  EncodeJSON (requested_entry ParsePolicies d) = Ok blob ->
  DecodeJSON blob = Ok (requested_entry ParsePolicies d) ->
  next_fault w = None ->
  next_fault (snd (WriteR b d w)) = None ->
  exact_seconds (Get_ttl d) -> exact_seconds (Get_max_ttl d) ->
  exists r,
    fst (ReadR b d (snd (WriteR b d w))) = Reply (Some r) /\
    logical.Warnings r = [] /\
    logical.Data r !! "certificate" =
      Some (logical.VString (Get_certificate d)) /\
    logical.Data r !! "policies" =
      Some (logical.VStrings (ParsePolicies (Get_policies d))) /\
    logical.Data r !! "display_name" =
      Some (logical.VString
              (if bool_decide (Get_display_name d = "")
               then ToLower (Get_name d) else Get_display_name d)) /\
    logical.Data r !! "ttl" = Some (logical.VDuration (Get_ttl d)) /\
    logical.Data r !! "max_ttl" = Some (logical.VDuration (Get_max_ttl d)).
Proof.
  intros Ha He Hd Hf Hf' Ht Hm.
  destruct (Write_stored parsePEM ParsePolicies EncodeJSON b d w blob
              Ha He Hf) as (_ & Hs & _).
  destruct (Read_present DecodeJSON b d (snd (WriteR b d w)) blob
              (requested_entry ParsePolicies d)) as (Ho & _);
    [done | rewrite Hs; apply lookup_insert_eq | done |].
  eexists. split; [exact Ho|]. simpl.
  unfold ttl_of, maxTTL_of.
  rewrite (seconds_of_exact_duration _ Ht), (seconds_of_exact_duration _ Hm).
  repeat split.
Qed.

(** X18.  The name of a stored entry is in lower case and is the last
    part of its key: after a successful write the storage holds, under
    ["cert/"] followed by the entry's name, the encoding of an entry whose
    name has none of the bytes ['A'..'Z'], has the length of the requested
    name, and is the requested name when that had no such byte. *)
Theorem stored_name_is_lower_case b d w :
  succeeds (fst (WriteR b d w)) ->
  exists entry blob,
    EncodeJSON entry = Ok blob /\
    store (snd (WriteR b d w)) !! ("cert/" +:+ Name entry) = Some blob /\
    has_upper (Name entry) = false /\
    String.length (Name entry) = String.length (Get_name d) /\
    (has_upper (Get_name d) = false -> Name entry = Get_name d).
Proof.
  intros Hs.
  destruct (Write_succeeds_inv parsePEM ParsePolicies EncodeJSON b d w Hs)
    as (_ & blob & He & _ & Hst).
  destruct (ToLower_normal_form (Get_name d)) as (H1 & H2 & H3).
  exists (requested_entry ParsePolicies d), blob.
  split; [done|]. split; [rewrite Hst; apply lookup_insert_eq|].
  now simpl.
Qed.

(** X19.  Entries under different names do not interfere: a read under a
    name whose lower-case form differs from that of the written name gives
    after the write what it gave before, the storage answering the read
    alike. *)
Theorem other_names_read_the_same b d w n :
  ToLower n <> ToLower (Get_name d) ->
  next_fault (snd (WriteR b d w)) = next_fault w ->
  fst (ReadR b (named n) (snd (WriteR b d w))) = fst (ReadR b (named n) w).
Proof.
  intros Hn Hf.
  assert (Hk : store (snd (WriteR b d w)) !! key_of n = store w !! key_of n).
  { destruct (Write_runs parsePEM ParsePolicies EncodeJSON b d w)
      as [(m & _ & _ & Hs & _) | [(_ & _ & _ & Hs) |
          (_ & blob & _ & _ & _ & Hs & _)]]; rewrite Hs; [done|done|].
    apply lookup_insert_ne. intros H. apply key_of_inj in H. congruence. }
  unfold key_of in Hk.
  unfold pathCertRead, run, bind, call, Cert, Storage_Get. simpl.
  rewrite ToLower_idem, Hf, Hk.
  destruct (next_fault w); [reflexivity|].
  destruct (store w !! _); [|reflexivity]. simpl.
  now destruct (DecodeJSON _).
Qed.

(** X20.  With a storage that answers, the list reply names a
    slash-free name exactly when an entry is stored under ["cert/"]
    followed by that name; no name is given twice. *)
Theorem list_agrees_with_store b d w n :
  next_fault w = None ->
  slash_free n = true ->
  (n ∈ listed (fst (pathCertList b d w)) <->
   is_Some (store w !! ("cert/" +:+ n))) /\
  NoDup (listed (fst (pathCertList b d w))).
Proof.
  intros Hf Hn. split.
  - now apply listed_slash_free.
  - destruct (List_ok b d w Hf) as (-> & _).
    rewrite listed_ListResponse. apply NoDup_remove_dups.
Qed.

(** X21.  A list never changes the stored data; when the storage refuses
    it the error is returned; and when nothing is stored under ["cert/"]
    the reply is a response without data. *)
Theorem list_is_read_only b d w :
  store (snd (pathCertList b d w)) = store w /\
  (forall e, next_fault w = Some e -> fst (pathCertList b d w) = Failure e) /\
  (next_fault w = None ->
   (forall key, is_Some (store w !! key) -> strip_prefix "cert/" key = None) ->
   fst (pathCertList b d w) =
     Reply (Some {| logical.Data := ∅; logical.Warnings := [] |})).
Proof.
  split; [|split].
  - destruct (next_fault w) as [e|] eqn:Hf.
    + now destruct (List_fault b d w e Hf).
    + now destruct (List_ok b d w Hf).
  - intros e Hf. now destruct (List_fault b d w e Hf).
  - intros Hf Hnone. destruct (List_ok b d w Hf) as (-> & _).
    assert (omap (fun key => up_to_slash <$> strip_prefix "cert/" key)
                 (map_to_list (store w)).*1 = []) as ->; [|reflexivity].
    apply elem_of_nil_inv. intros x Hx.
    apply list_elem_of_omap in Hx as (key & Hin & Hk).
    apply list_elem_of_fmap in Hin as ([key' blob] & -> & Hin).
    apply elem_of_map_to_list in Hin.
    change (up_to_slash <$> strip_prefix "cert/" key' = Some x) in Hk.
    rewrite (Hnone key') in Hk by eauto. discriminate Hk.
Qed.

(** X22.  A name is listed once it is written and no longer once it is
    deleted: after a successful write under a slash-free name the list
    names its lower-case form, and after a delete of the name the list
    does not (the storage answering each call). *)
Theorem listing_follows_writes_and_deletes b d w blob :
  slash_free (Get_name d) = true ->
  admitted parsePEM d ->
  EncodeJSON (requested_entry ParsePolicies d) = Ok blob ->
  next_fault w = None ->
  next_fault (snd (WriteR b d w)) = None ->
  next_fault (snd (pathCertDelete b d (snd (WriteR b d w)))) = None ->
  (ToLower (Get_name d)
     ∈ listed (fst (pathCertList b no_fields (snd (WriteR b d w))))) /\
  (ToLower (Get_name d)
     ∉ listed (fst (pathCertList b no_fields
                      (snd (pathCertDelete b d (snd (WriteR b d w))))))).
Proof.
  intros Hn Ha He Hf Hf1 Hf2.
  assert (Hl : slash_free (ToLower (Get_name d)) = true)
    by now rewrite slash_free_ToLower.
  destruct (Write_stored parsePEM ParsePolicies EncodeJSON b d w blob
              Ha He Hf) as (_ & Hs & _).
  destruct (Delete_ok b d _ Hf1) as (_ & Hd).
  split.
  - apply listed_slash_free; [done|done|].
    rewrite Hs. unfold key_of. rewrite lookup_insert_eq. eauto.
  - intros Hin. apply listed_slash_free in Hin; [|done|done].
    rewrite Hd in Hin. unfold key_of in Hin.
    rewrite lookup_delete_eq in Hin. now destruct Hin.
Qed.

End Reading.

(** ** The further statements on the test bench *)

Lemma Bench_admitted_long_lease : admitted Bench.parsePEM long_lease.
Proof.
  split; [evaluate|].
  exists {| x509.IsCA := false;
            x509.ExtKeyUsage := Some [x509.ExtKeyUsageClientAuth] |}, [].
  split; evaluate.
Defined.

Lemma Bench_admitted_upper_case_ca : admitted Bench.parsePEM upper_case_ca.
Proof.
  split; [evaluate|].
  exists {| x509.IsCA := true; x509.ExtKeyUsage := None |}, [].
  split; evaluate.
Defined.

(** A request turned down for [ttl > maxTTL] on a storage with nothing
    pending. *)
Lemma rejection_precedes_storage_witness :
  fst (Bench.Write Bench.b Bench.over_max Bench.fresh) =
    InvalidArgument msg_ttl_over_max /\
  store (snd (Bench.Write Bench.b Bench.over_max Bench.fresh)) = ∅ /\
  faults (snd (Bench.Write Bench.b Bench.over_max Bench.fresh)) = [].
Proof.
  split; [evaluate|].
  apply (rejection_precedes_storage Bench.parsePEM Bench.ParsePolicies
           Bench.EncodeJSON Bench.b Bench.over_max Bench.fresh
           msg_ttl_over_max).
  evaluate.
Defined.

(** Writing [Example] leaves the key of [other] empty. *)
Lemma write_touches_one_key_witness :
  store (snd (Bench.Write Bench.b Bench.client_leaf Bench.fresh))
    !! "cert/other" = None.
Proof.
  apply (write_touches_one_key Bench.parsePEM Bench.ParsePolicies
           Bench.EncodeJSON Bench.b Bench.client_leaf Bench.fresh
           "cert/other").
  vm_compute. discriminate.
Defined.

(** ttl = 40s on a mount whose default is 30s, max_ttl within the
    maximum: one warning. *)
Lemma success_reply_shape_witness :
  exists r,
    fst (Bench.Write Bench.b Bench.client_leaf Bench.fresh) =
      Reply (Some r) /\
    logical.Data r = ∅ /\
    logical.Warnings r =
      ["Given ttl of 40 seconds is greater than current mount/system default of 30 seconds"].
Proof.
  destruct (success_reply_shape Bench.parsePEM Bench.ParsePolicies
              Bench.EncodeJSON Bench.b Bench.client_leaf Bench.fresh)
    as (_ & H); [evaluate|].
  eexists. split; [vm_compute; reflexivity|]. apply H. vm_compute.
  reflexivity.
Defined.

(** max_ttl = 90s on a mount whose maximum is 60s. *)
Lemma max_ttl_above_ceiling_warns_witness :
  exists resp,
    fst (Bench.Write Bench.b long_lease Bench.fresh) = Reply (Some resp) /\
    last (logical.Warnings resp) =
      Some "Given max_ttl of 90 seconds is greater than current mount/system default of 60 seconds".
Proof.
  edestruct (max_ttl_above_ceiling_warns Bench.parsePEM Bench.ParsePolicies
               Bench.EncodeJSON Bench.b long_lease Bench.fresh)
    as (resp & Ho & _ & Hl & _).
  - exact Bench_admitted_long_lease.
  - vm_compute. reflexivity.
  - reflexivity.
  - evaluate.
  - exists resp. split; [exact Ho|exact Hl].
Defined.

Lemma stored_entry_lease_invariants_witness :
  exists entry blob,
    Bench.EncodeJSON entry = Ok blob /\
    store (snd (Bench.Write Bench.b Bench.client_leaf Bench.fresh))
      !! "cert/example" = Some blob /\
    0 <= TTL entry <= int64_max /\
    0 <= MaxTTL entry <= int64_max /\
    (MaxTTL entry = 0 \/ TTL entry <= MaxTTL entry).
Proof.
  apply (stored_entry_lease_invariants Bench.parsePEM Bench.ParsePolicies
           Bench.EncodeJSON Bench.b Bench.client_leaf Bench.fresh).
  evaluate.
Defined.

Lemma stored_certificate_is_checked_witness :
  exists entry blob c rest,
    Bench.EncodeJSON entry = Ok blob /\
    store (snd (Bench.Write Bench.b Bench.client_leaf Bench.fresh))
      !! "cert/example" = Some blob /\
    Certificate entry = "Lsc" /\
    Policies entry = Bench.ParsePolicies ["Default"; "ops"; "default"] /\
    Bench.parsePEM (bytes_of_string (Certificate entry)) = c :: rest /\
    usable_for_client_auth c.
Proof.
  apply (stored_certificate_is_checked Bench.parsePEM Bench.ParsePolicies
           Bench.EncodeJSON Bench.b Bench.client_leaf Bench.fresh).
  evaluate.
Defined.

(** [Example] written, then [EXAMPLE] written over it. *)
Lemma write_replaces_witness :
  store (snd (Bench.Write Bench.b upper_case_ca
                (snd (Bench.Write Bench.b Bench.client_leaf Bench.fresh)))) =
  store (snd (Bench.Write Bench.b upper_case_ca Bench.fresh)).
Proof.
  eapply (write_replaces Bench.parsePEM Bench.ParsePolicies Bench.EncodeJSON
            Bench.b Bench.client_leaf upper_case_ca Bench.fresh).
  - exact Bench_admitted_client_leaf.
  - exact Bench_admitted_upper_case_ca.
  - vm_compute. reflexivity.
  - vm_compute. reflexivity.
  - evaluate.
  - evaluate.
  - evaluate.
Defined.

(** ttl = 0 and max_ttl = 0 with a CA certificate. *)
Lemma zero_lease_passes_witness :
  fst (Bench.Write Bench.b zero_lease Bench.fresh) = Reply None.
Proof.
  apply (zero_lease_passes Bench.parsePEM Bench.ParsePolicies
           Bench.EncodeJSON Bench.b zero_lease Bench.fresh);
    evaluate.
Defined.

(** [Example] written, [example] deleted, [EXAMPLE] read. *)
Lemma deleted_name_reads_empty_witness :
  fst (Bench.Read Bench.b (named "EXAMPLE")
         (snd (Bench.Delete Bench.b (named "example")
                 (snd (Bench.Write Bench.b Bench.client_leaf
                         Bench.fresh))))) = Reply None.
Proof.
  apply (deleted_name_reads_empty Bench.DecodeJSON Bench.b "example"
           "EXAMPLE"
           (snd (Bench.Write Bench.b Bench.client_leaf Bench.fresh)));
    evaluate.
Defined.

(** A request for 40 and 50 seconds reads back as 40 and 50. *)
Lemma read_returns_the_request_witness :
  exists r,
    fst (Bench.Read Bench.b Bench.client_leaf
           (snd (Bench.Write Bench.b Bench.client_leaf Bench.fresh))) =
      Reply (Some r) /\
    logical.Data r !! "display_name" = Some (logical.VString "example") /\
    logical.Data r !! "ttl" = Some (logical.VDuration 40) /\
    logical.Data r !! "max_ttl" = Some (logical.VDuration 50).
Proof.
  edestruct (read_returns_the_request Bench.parsePEM Bench.ParsePolicies
               Bench.EncodeJSON Bench.DecodeJSON Bench.b Bench.client_leaf
               Bench.fresh)
    as (r & Ho & _ & _ & _ & Hd & Ht & Hm).
  - exact Bench_admitted_client_leaf.
  - vm_compute. reflexivity.
  - evaluate.
  - evaluate.
  - evaluate.
  - evaluate.
  - evaluate.
  - exists r. split; [exact Ho|]. split; [exact Hd|]. split; [exact Ht|].
    exact Hm.
Defined.

Lemma stored_name_is_lower_case_witness :
  exists entry blob,
    Bench.EncodeJSON entry = Ok blob /\
    store (snd (Bench.Write Bench.b Bench.client_leaf Bench.fresh))
      !! ("cert/" +:+ Name entry) = Some blob /\
    has_upper (Name entry) = false /\
    String.length (Name entry) = 7%nat.
Proof.
  destruct (stored_name_is_lower_case Bench.parsePEM Bench.ParsePolicies
              Bench.EncodeJSON Bench.b Bench.client_leaf Bench.fresh)
    as (entry & blob & He & Hs & Hu & Hl & _); [evaluate|].
  exists entry, blob. split; [exact He|]. split; [exact Hs|].
  split; [exact Hu|exact Hl].
Defined.

(** Writing [Example] does not change what a read of [other] gives. *)
Lemma other_names_read_the_same_witness :
  fst (Bench.Read Bench.b (named "other")
         (snd (Bench.Write Bench.b Bench.client_leaf Bench.fresh))) =
  fst (Bench.Read Bench.b (named "other") Bench.fresh).
Proof.
  apply (other_names_read_the_same Bench.parsePEM Bench.ParsePolicies
           Bench.EncodeJSON Bench.DecodeJSON Bench.b Bench.client_leaf
           Bench.fresh "other").
  - vm_compute. discriminate.
  - evaluate.
Defined.

(** After writing [Example], the list names [example]. *)
Lemma list_agrees_with_store_witness :
  "example" ∈ listed (fst (pathCertList Bench.b no_fields
                   (snd (Bench.Write Bench.b Bench.client_leaf Bench.fresh)))).
Proof.
  apply (list_agrees_with_store Bench.b no_fields
           (snd (Bench.Write Bench.b Bench.client_leaf Bench.fresh))
           "example"); [evaluate | evaluate |].
  vm_compute. eexists. reflexivity.
Defined.

Lemma listing_follows_writes_and_deletes_witness :
  ("example" ∈ listed (fst (pathCertList Bench.b no_fields
                    (snd (Bench.Write Bench.b Bench.client_leaf
                            Bench.fresh))))) /\
  ("example" ∉ listed (fst (pathCertList Bench.b no_fields
                    (snd (Bench.Delete Bench.b Bench.client_leaf
                            (snd (Bench.Write Bench.b Bench.client_leaf
                                    Bench.fresh))))))).
Proof.
  eapply (listing_follows_writes_and_deletes Bench.parsePEM
            Bench.ParsePolicies Bench.EncodeJSON Bench.b Bench.client_leaf
            Bench.fresh).
  - evaluate.
  - exact Bench_admitted_client_leaf.
  - vm_compute. reflexivity.
  - evaluate.
  - evaluate.
  - evaluate.
Defined.
